(** * compose-to-template: the Docker Compose to Easypanel template converter

    A shallow embedding of the pure part of [ComposeToTemplateConverter]
    (the compose-to-template script): the service classifier, the value
    parsers for environments, volumes and ports, the schema synthesis of
    [generateMetaYaml] and the source-text emission of [generateIndexTs].

    Conventions of the embedding.
    - A JavaScript string is the [string] of its characters, text
      outside ASCII being taken in UTF-8. The case mappings fold the
      letters of ASCII; the white space that [parseInt] skips is all
      the white space of JavaScript.
    - A JavaScript object used as a record of string keys is the list of
      its entries in enumeration order ([Js.Obj]). [Js.assign] is the
      assignment [o[k] = v] of a string on an object that [{}] created,
      for any key: a key that is present keeps its place, a new array
      index goes before the keys it precedes, any other new key comes
      last, and [__proto__] is not written. [Js.set] is the
      assignment for the keys that are neither: it is used for the
      tables whose keys are service names and field names. [Js.get] is
      the lookup among the entries; [Js.inherited] tells the names that
      JavaScript answers on every object, and the lookup of a service
      by a name that the document may not declare
      ([Converter.serviceNamed]) answers them.
    - [new RegExp(name, 'g')] is modelled for names that the pattern
      syntax reads literally ([Js.regexLiteral]), as service names made
      of letters, digits, [-] and [_] are.
    - A JavaScript number produced by [parseInt] is [NaN], an infinity
      or an integer that a double holds: [Js.toDouble] rounds as the
      conversion to a double does, and [Js.numberToString] prints the
      shortest decimal that reads back, with an exponent from 10^21 on.
    - The values of an environment are strings, as the interface
      [DockerComposeService] declares them. Both readers of the values,
      [interpolateEnvValue] and the defaults of the schema, take
      [String(value)]: a value of another type stands in the model as
      that string.
    - A property read on [undefined] raises a [TypeError]; functions that
      can reach one return [option] and [None] stands for the exception. *)

From Stdlib Require Import String Ascii List Bool Arith ZArith Lia.
From Stdlib Require Import Permutation Sorted.
From Stdlib Require Import DecimalString DecimalPos DecimalN DecimalZ.
Import ListNotations.

Open Scope list_scope.
Open Scope string_scope.

(* ================================================================== *)
(** ** JavaScript strings, numbers and objects *)
(* ================================================================== *)

Module Js.

(** The characters that cannot be written inside a literal. *)
Definition nl : string := String (ascii_of_nat 10) EmptyString.
Definition dq : string := String (ascii_of_nat 34) EmptyString.

(** [s.startsWith(p)] *)
Definition startsWith (s p : string) : bool := String.prefix p s.

(** [s.includes(sub)] *)
Fixpoint includes (s sub : string) : bool :=
  String.prefix sub s ||
  match s with
  | EmptyString => false
  | String _ s' => includes s' sub
  end.

Definition lowerChar (c : ascii) : ascii :=
  let n := nat_of_ascii c in
  if ((65 <=? n) && (n <=? 90))%nat then ascii_of_nat (n + 32) else c.

(** [s.toLowerCase()] *)
Fixpoint toLowerCase (s : string) : string :=
  match s with
  | EmptyString => EmptyString
  | String c s' => String (lowerChar c) (toLowerCase s')
  end.

(** [s.split(sep)] for a separator of one character: never empty, and
    [n] separators give [n + 1] segments. *)
Fixpoint split (sep : ascii) (s : string) : list string :=
  match s with
  | EmptyString => [EmptyString]
  | String c s' =>
      if Ascii.eqb c sep then EmptyString :: split sep s'
      else match split sep s' with
           | seg :: segs => String c seg :: segs
           | [] => [String c EmptyString]
           end
  end.

(** [parts.join(sep)] *)
Fixpoint join (sep : string) (parts : list string) : string :=
  match parts with
  | [] => EmptyString
  | [p] => p
  | p :: ps => p ++ sep ++ join sep ps
  end.

(** [s.replace(/c/g, rep)] for a pattern that is one literal character. *)
Fixpoint replaceChar (c : ascii) (rep : string) (s : string) : string :=
  match s with
  | EmptyString => EmptyString
  | String x s' =>
      (if Ascii.eqb x c then rep else String x EmptyString)
        ++ replaceChar c rep s'
  end.

(** The scan of a global replace with a non-empty literal pattern:
    [skip] counts the characters of the current match still to drop. *)
Fixpoint replaceScan (pat rep : string) (skip : nat) (s : string) : string :=
  match s with
  | EmptyString => EmptyString
  | String c s' =>
      match skip with
      | S k => replaceScan pat rep k s'
      | O =>
          if String.prefix pat s
          then rep ++ replaceScan pat rep (String.length pat - 1) s'
          else String c (replaceScan pat rep 0 s')
      end
  end.

(** What a global replace with the empty pattern leaves after the
    first character: [rep] follows every character. *)
Fixpoint insertAfterEach (rep : string) (s : string) : string :=
  match s with
  | EmptyString => EmptyString
  | String c s' => String c (rep ++ insertAfterEach rep s')
  end.

(** [s.replace(new RegExp(pat, 'g'), rep)] where [pat] is matched
    literally and [rep] is inserted literally: matches are taken
    leftmost first and do not overlap; the empty pattern matches at
    every position. *)
Definition replaceAll (pat rep : string) (s : string) : string :=
  match pat with
  | EmptyString => rep ++ insertAfterEach rep s
  | String _ _ => replaceScan pat rep 0 s
  end.

(** A pattern source that [new RegExp] reads as a literal: none of the
    characters that the pattern syntax or the replacement syntax
    reserves. *)
Definition regexMeta : string := "\^$.|?*+()[]{}".

Fixpoint mem (c : ascii) (s : string) : bool :=
  match s with
  | EmptyString => false
  | String x s' => Ascii.eqb x c || mem c s'
  end.

Fixpoint regexLiteral (pat : string) : bool :=
  match pat with
  | EmptyString => true
  | String c pat' => negb (mem c regexMeta) && regexLiteral pat'
  end.

(** *** Numbers *)

(** A number that the converter can meet: [NaN], an integer that a
    double holds, or an infinity. *)
Inductive Number : Type :=
| NaN
| Int (z : Z)
| Infinity (negative : bool).

Definition isWhiteSpace (c : ascii) : bool :=
  let n := nat_of_ascii c in
  (((9 <=? n) && (n <=? 13)) || (n =? 32))%nat.

(** The other white space and line terminators of JavaScript, as the
    bytes of their UTF-8 text: U+00A0 on two bytes; U+1680, U+2000 to
    U+200A, U+2028, U+2029, U+202F, U+205F, U+3000 and U+FEFF on
    three. *)
Definition isWhiteSpace2 (c1 c2 : ascii) : bool :=
  ((nat_of_ascii c1 =? 194) && (nat_of_ascii c2 =? 160))%nat.

Definition isWhiteSpace3 (c1 c2 c3 : ascii) : bool :=
  let n1 := nat_of_ascii c1 in
  let n2 := nat_of_ascii c2 in
  let n3 := nat_of_ascii c3 in
  (((n1 =? 225) && (n2 =? 154) && (n3 =? 128))
   || ((n1 =? 226) && (n2 =? 128)
       && (((128 <=? n3) && (n3 <=? 138))
           || (n3 =? 168) || (n3 =? 169) || (n3 =? 175)))
   || ((n1 =? 226) && (n2 =? 129) && (n3 =? 159))
   || ((n1 =? 227) && (n2 =? 128) && (n3 =? 128))
   || ((n1 =? 239) && (n2 =? 187) && (n3 =? 191)))%nat.

Definition digitValue (c : ascii) : option Z :=
  let n := nat_of_ascii c in
  if ((48 <=? n) && (n <=? 57))%nat then Some (Z.of_nat (n - 48)) else None.

Fixpoint trimStart (s : string) : string :=
  match s with
  | EmptyString => EmptyString
  | String c1 s1 =>
      if isWhiteSpace c1 then trimStart s1
      else
        match s1 with
        | EmptyString => s
        | String c2 s2 =>
            if isWhiteSpace2 c1 c2 then trimStart s2
            else
              match s2 with
              | EmptyString => s
              | String c3 s3 =>
                  if isWhiteSpace3 c1 c2 c3 then trimStart s3 else s
              end
        end
  end.

(** The value of the longest run of decimal digits at the head of [s],
    continuing from [acc]; [seen] tells whether a digit was read. *)
Fixpoint readDigits (seen : bool) (acc : Z) (s : string) : option Z :=
  match s with
  | EmptyString => if seen then Some acc else None
  | String c s' =>
      match digitValue c with
      | Some d => readDigits true (10 * acc + d)%Z s'
      | None => if seen then Some acc else None
      end
  end.

(** The double nearest to an integer. Up to 2^53 every integer is a
    double. Beyond, a double keeps 53 bits: the bits below are rounded
    away, to the nearest and at a tie to the even one, and a magnitude
    that rounds to 2^1024 is infinite. *)
Definition toDouble (z : Z) : Number :=
  let a := Z.abs z in
  if (a <? 2 ^ 53)%Z then Int z
  else
    let e := (Z.log2 a - 52)%Z in
    let q := Z.shiftr a e in
    let r := Z.land a (Z.ones e) in
    let half := Z.shiftl 1 (e - 1) in
    let up := (half <? r)%Z || ((r =? half)%Z && Z.odd q) in
    let m := Z.shiftl (if up then q + 1 else q)%Z e in
    if (m <? 2 ^ 1024)%Z then Int (Z.sgn z * m) else Infinity (z <? 0)%Z.

(** [parseInt(s, 10)]: leading white space, an optional sign, then the
    longest digit prefix, read as a decimal integer and returned as a
    double; [NaN] when there is no digit. *)
Definition parseInt (s : string) : Number :=
  let body := trimStart s in
  let '(sign, rest) :=
    match body with
    | String "-" r => ((-1)%Z, r)
    | String "+" r => (1%Z, r)
    | _ => (1%Z, body)
    end in
  match readDigits false 0%Z rest with
  | Some n => toDouble (sign * n)
  | None => NaN
  end.

(** All the digits of an integer, with its sign. *)
Definition decimal (z : Z) : string := NilZero.string_of_int (Z.to_int z).

Definition readsBack (x a : Z) : bool :=
  match toDouble x with
  | Int y => (y =? a)%Z
  | _ => false
  end.

(** The shortest decimal that reads back as the double [a], a positive
    integer of [d] digits: the least number [k] of leading digits such
    that a multiple of [10 ^ (d - k)] next to [a] rounds to [a], and of
    the two multiples the nearer one, the one with the even last digit
    at a tie. The search starts at [k] and gives up after [fuel]
    steps, with the digits of [a] itself. *)
Fixpoint shortestDecimal (fuel : nat) (k d a : Z) : Z :=
  match fuel with
  | O => a
  | S fuel' =>
      if (d <=? k)%Z then a
      else
        let p := (10 ^ (d - k))%Z in
        let lo := (a / p * p)%Z in
        let hi := (lo + p)%Z in
        let okLo := readsBack lo a in
        let okHi := readsBack hi a in
        if okLo && okHi then
          if (a - lo <? hi - a)%Z then lo
          else if (hi - a <? a - lo)%Z then hi
          else if Z.even (a / p) then lo else hi
        else if okLo then lo
        else if okHi then hi
        else shortestDecimal fuel' (k + 1)%Z d a
  end.

Fixpoint dropZeros (digits : list ascii) : list ascii :=
  match digits with
  | "0"%char :: rest => dropZeros rest
  | _ => digits
  end.

(** The digits of [s] without the zeros that end it. *)
Definition significand (s : string) : string :=
  string_of_list_ascii
    (rev (dropZeros (rev (list_ascii_of_string s)))).

(** [String(x)] for a double [x] that is a positive integer: the digits
    of the shortest decimal that reads back as [x], written in full
    when there are at most 21 of them and with an exponent otherwise. *)
Definition showDouble (a : Z) : string :=
  let d := Z.of_nat (String.length (decimal a)) in
  let v := shortestDecimal 17 1 d a in
  let digits := decimal v in
  let n := Z.of_nat (String.length digits) in
  if (n <=? 21)%Z then digits
  else
    match significand digits with
    | String c EmptyString =>
        String c EmptyString ++ "e+" ++ decimal (n - 1)
    | String c rest => String c ("." ++ rest) ++ "e+" ++ decimal (n - 1)
    | EmptyString => digits
    end.

(** [String(n)], also what [`${n}`] gives: an integer below 2^53 is
    written with all its digits. *)
Definition numberToString (n : Number) : string :=
  match n with
  | NaN => "NaN"
  | Infinity negative => if negative then "-Infinity" else "Infinity"
  | Int z =>
      if (Z.abs z <? 2 ^ 53)%Z then decimal z
      else if (z <? 0)%Z then "-" ++ showDouble (Z.abs z)
      else showDouble z
  end.

(** *** Objects with string keys *)

Definition Obj (V : Type) : Type := list (string * V).

Definition entries {V} (o : Obj V) : list (string * V) := o.

Definition keys {V} (o : Obj V) : list string := map fst o.

(** [o[k]] for a key that is not inherited: the value of the entry, and
    [undefined] when there is none. *)
Fixpoint get {V} (o : Obj V) (k : string) : option V :=
  match o with
  | [] => None
  | (k', v) :: o' => if String.eqb k' k then Some v else get o' k
  end.

(** [o[k] = v] for a key that is ordinary on [o]: the value of a key
    that is present is replaced in place, a new key comes last. *)
Fixpoint set {V} (o : Obj V) (k : string) (v : V) : Obj V :=
  match o with
  | [] => [(k, v)]
  | (k', v') :: o' =>
      if String.eqb k' k then (k', v) :: o' else (k', v') :: set o' k v
  end.

(** The properties that every object inherits from [Object.prototype]:
    [o[k]] is defined for these names on any object, also when [k] is
    not a key of [o]. *)
Definition objectPrototypeNames : list string :=
  ["constructor"; "__defineGetter__"; "__defineSetter__";
   "hasOwnProperty"; "__lookupGetter__"; "__lookupSetter__";
   "isPrototypeOf"; "propertyIsEnumerable"; "toString"; "valueOf";
   "__proto__"; "toLocaleString"].

Definition inherited (k : string) : bool :=
  existsb (String.eqb k) objectPrototypeNames.

Fixpoint allDigits (s : string) : bool :=
  match s with
  | EmptyString => true
  | String c s' =>
      match digitValue c with
      | Some _ => allDigits s'
      | None => false
      end
  end.

(** An array index: the key is the decimal numeral, without leading
    zero, of an integer below 2^32 - 1. An object enumerates these keys
    first, in ascending order, whenever they were written. *)
Definition arrayIndex (k : string) : option Z :=
  match k with
  | EmptyString => None
  | String c rest =>
      if allDigits k
         && (negb (Ascii.eqb c "0") || String.eqb rest EmptyString)
      then
        match readDigits false 0%Z k with
        | Some i => if (i <? 2 ^ 32 - 1)%Z then Some i else None
        | None => None
        end
      else None
  end.

(** [k] is enumerated before [k']. *)
Definition precedes (k k' : string) : bool :=
  match arrayIndex k, arrayIndex k' with
  | Some i, Some i' => (i <? i')%Z
  | Some _, None => true
  | None, _ => false
  end.

(** The place of a written key in the enumeration: a key that is
    present keeps its place, a new array index goes before the keys it
    precedes, any other new key comes last. *)
Fixpoint insertKey {V} (o : Obj V) (k : string) (v : V) : Obj V :=
  match o with
  | [] => [(k, v)]
  | (k', v') :: o' =>
      if String.eqb k' k then (k', v) :: o'
      else if precedes k k' then (k, v) :: (k', v') :: o'
      else (k', v') :: insertKey o' k v
  end.

(** [o[k] = v] for a string [v], on an object that [{}] created: a
    string assigned to [__proto__] is ignored, and no property is
    written. *)
Definition assign (o : Obj string) (k : string) (v : string) : Obj string :=
  if String.eqb k "__proto__" then o else insertKey o k v.

(** [a.push(x)] *)
Definition push {A} (a : list A) (x : A) : list A := (a ++ [x])%list.

End Js.

(* ================================================================== *)
(** ** The converter *)
(* ================================================================== *)

Module Converter.
Import Js.

(** *** The compose document *)

Inductive BuildSpec : Type :=
| BuildPath (context : string)
| BuildObject (context : string) (dockerfile : option string).

Inductive CommandSpec : Type :=
| CommandString (c : string)
| CommandArray (args : list string).

Inductive EnvironmentSpec : Type :=
| EnvRecord (vars : Obj string)
| EnvArray (items : list string).

(** [interface DockerComposeService]: the fields the converter reads. *)
Record DockerComposeService : Type := {
  image : option string;
  build : option BuildSpec;
  command : option CommandSpec;
  environment : option EnvironmentSpec;
  ports : option (list string);
  volumes : option (list string)
}.

(** [interface DockerCompose] *)
Record DockerCompose : Type := {
  services : Obj DockerComposeService
}.

(** Truthiness of the optional fields: a missing field and the empty
    string are falsy, objects and arrays are truthy. *)
Definition truthyString (o : option string) : bool :=
  match o with
  | Some (String _ _) => true
  | _ => false
  end.

Definition truthyBuild (o : option BuildSpec) : bool :=
  match o with
  | Some (BuildPath (String _ _)) => true
  | Some (BuildObject _ _) => true
  | _ => false
  end.

(** [s || d] on strings *)
Definition orElse (s d : string) : string :=
  match s with
  | EmptyString => d
  | String _ _ => s
  end.

Definition sanitizeVarName (name : string) : string :=
  replaceChar "-" "_" name.

(** *** analyzeServices *)

Record Analysis : Type := {
  databases : list string;
  apps : list string;
  otherServices : list string
}.

Definition dbImages : list string :=
  ["postgres"; "mysql"; "mariadb"; "mongo"; "redis"; "elasticsearch"].

(** [service.image?.toLowerCase() || ''] *)
Definition imageLower (service : DockerComposeService) : string :=
  match image service with
  | Some i => orElse (toLowerCase i) ""
  | None => ""
  end.

Definition isDb (name : string) (service : DockerComposeService) : bool :=
  existsb
    (fun db => includes (imageLower service) db
               || includes (toLowerCase name) db)
    dbImages.

(** The body of the loop over [Object.entries(services)]. *)
Definition analyzeStep (acc : Analysis)
    (entry : string * DockerComposeService) : Analysis :=
  let '(name, service) := entry in
  if isDb name service then
    {| databases := push (databases acc) name;
       apps := apps acc;
       otherServices := otherServices acc |}
  else if truthyString (image service) || truthyBuild (build service) then
    {| databases := databases acc;
       apps := push (apps acc) name;
       otherServices := otherServices acc |}
  else
    {| databases := databases acc;
       apps := apps acc;
       otherServices := push (otherServices acc) name |}.

Definition analyzeServices (services : Obj DockerComposeService) : Analysis :=
  fold_left analyzeStep (entries services)
    {| databases := []; apps := []; otherServices := [] |}.

(** The class a service falls in: the branch [analyzeStep] takes. *)
Inductive ServiceClass : Type := Database | Application | Other.

Definition classify (name : string) (service : DockerComposeService)
  : ServiceClass :=
  if isDb name service then Database
  else if truthyString (image service) || truthyBuild (build service)
       then Application
       else Other.

(** *** parseEnvironment *)

Definition parseEnvironmentItem (result : Obj string) (item : string)
  : Obj string :=
  match split "=" item with
  | key :: valueParts => assign result key (orElse (join "=" valueParts) "")
  | [] => result
  end.

Definition parseEnvironment (env : EnvironmentSpec) : Obj string :=
  match env with
  | EnvArray items => fold_left parseEnvironmentItem items []
  | EnvRecord vars => vars
  end.

(** *** interpolateEnvValue *)

(** The text put in place of a database name. *)
Definition serviceReference (dbName : string) : string :=
  "$(PROJECT_NAME)_${input." ++ dbName ++ "ServiceName}".

Definition escapeTemplate (s : string) : string :=
  replaceChar "$" "\$" (replaceChar "`" "\`" s).

(** The loop over [Object.entries(dbPasswords)] replaces every database
    name by its reference, one name after the other; the result is then
    escaped for the template literal it is emitted in. *)
Definition interpolateEnvValue (value : string) (dbPasswords : Obj string)
  : string :=
  let strValue :=
    fold_left
      (fun str (entry : string * string) =>
         let '(dbName, _) := entry in
         replaceAll dbName (serviceReference dbName) str)
      (entries dbPasswords) value in
  escapeTemplate strValue.

(** *** parseVolume *)

Inductive MountType : Type := volume | bind.

Record ParsedVolume : Type := {
  type : MountType;
  name : string;
  containerPath : string;
  hostPath : option string
}.

Definition parseVolume (vol : string) : ParsedVolume :=
  let parts := split ":" vol in
  if (2 <=? List.length parts)%nat then
    let source := nth 0 parts "" in
    let target := nth 1 parts "" in
    if startsWith source "/" || startsWith source "./" then
      {| type := bind; name := source;
         containerPath := target; hostPath := Some source |}
    else
      {| type := volume; name := source;
         containerPath := target; hostPath := None |}
  else
    {| type := volume; name := "unknown";
       containerPath := vol; hostPath := None |}.

(** *** parsePort *)

Record PortBinding : Type := {
  hostPort : Number;
  containerPort : Number
}.

Definition parsePort (port : string) : option PortBinding :=
  let parts := split ":" port in
  if (List.length parts =? 2)%nat then
    Some {| hostPort := parseInt (nth 0 parts "");
            containerPort := parseInt (nth 1 parts "") |}
  else if (List.length parts =? 1)%nat then
    let p := parseInt (nth 0 parts "") in
    Some {| hostPort := p; containerPort := p |}
  else None.

(** *** detectDatabaseType *)

Definition detectDatabaseType (img : string) : option string :=
  let lower := toLowerCase img in
  if includes lower "postgres" then Some "postgres"
  else if includes lower "mysql" then Some "mysql"
  else if includes lower "mariadb" then Some "mariadb"
  else if includes lower "mongo" then Some "mongo"
  else if includes lower "redis" then Some "redis"
  else None.

(** *** generateAppServiceCode *)

Definition quoted (s : string) : string := dq ++ s ++ dq.

(** The body of the loop over [Object.entries(envVars)]. *)
Definition envLineCode (dbPasswords : Obj string) (code : string)
    (entry : string * string) : string :=
  let '(key, value) := entry in
  let interpolatedValue := interpolateEnvValue value dbPasswords in
  code ++ "        `" ++ key ++ "=" ++ interpolatedValue ++ "`," ++ nl.

(** The body of the loop over [service.volumes]. *)
Definition mountCode (code : string) (vol : string) : string :=
  let parsed := parseVolume vol in
  match type parsed with
  | volume =>
      let code := code ++ "        {" ++ nl in
      let code := code ++ "          type: " ++ quoted "volume" ++ "," ++ nl in
      let code :=
        code ++ "          name: " ++ quoted (name parsed) ++ "," ++ nl in
      let code :=
        code ++ "          mountPath: " ++ quoted (containerPath parsed)
             ++ "," ++ nl in
      code ++ "        }," ++ nl
  | bind => code ++ "        // TODO: Handle bind mount: " ++ vol ++ nl
  end.

Definition appHeadCode (serviceName : string) : string :=
  let code := "  // " ++ serviceName ++ " Service" ++ nl in
  let code := code ++ "  services.push({" ++ nl in
  let code := code ++ "    type: " ++ quoted "app" ++ "," ++ nl in
  let code := code ++ "    data: {" ++ nl in
  code ++ "      serviceName: input." ++ serviceName ++ "ServiceName," ++ nl.

(** The blocks of [generateAppServiceCode], each named by the comment
    that opens it in the source; a block takes the text emitted so far
    and returns it with its own lines appended. *)

(* Environment variables *)
Definition environmentCode (service : DockerComposeService)
    (dbPasswords : Obj string) (code : string) : string :=
  let envVars :=
    parseEnvironment
      (match environment service with
       | Some env => env
       | None => EnvRecord []
       end) in
  if (0 <? List.length (keys envVars))%nat then
    let code := code ++ "      env: [" ++ nl in
    let code := fold_left (envLineCode dbPasswords) (entries envVars) code in
    code ++ "      ].join(" ++ quoted "\n" ++ ")," ++ nl
  else code.

(* Source *)
Definition sourceCode (serviceName : string)
    (service : DockerComposeService) (code : string) : string :=
  if truthyString (image service) then
    let code := code ++ "      source: {" ++ nl in
    let code := code ++ "        type: " ++ quoted "image" ++ "," ++ nl in
    let code :=
      code ++ "        image: input." ++ serviceName ++ "ServiceImage,"
           ++ nl in
    code ++ "      }," ++ nl
  else if truthyBuild (build service) then
    let code := code ++ "      // TODO: Configure build source" ++ nl in
    let code := code ++ "      source: {" ++ nl in
    let code := code ++ "        type: " ++ quoted "image" ++ "," ++ nl in
    let code :=
      code ++ "        image: " ++ quoted "REPLACE_WITH_IMAGE" ++ "," ++ nl in
    code ++ "      }," ++ nl
  else code.

(* Volumes *)
Definition volumesCode (service : DockerComposeService) (code : string)
  : string :=
  match volumes service with
  | Some (v :: vs) =>
      let code := code ++ "      mounts: [" ++ nl in
      let code := fold_left mountCode (v :: vs) code in
      code ++ "      ]," ++ nl
  | _ => code
  end.

(* Ports / Domains *)
Definition domainsCode (service : DockerComposeService) (code : string)
  : string :=
  match ports service with
  | Some (first :: _) =>
      match parsePort first with
      | Some firstPort =>
          let code := code ++ "      domains: [" ++ nl in
          let code := code ++ "        {" ++ nl in
          let code :=
            code ++ "          host: " ++ quoted "$(EASYPANEL_DOMAIN)"
                 ++ "," ++ nl in
          let code :=
            code ++ "          port: "
                 ++ numberToString (containerPort firstPort) ++ "," ++ nl in
          let code := code ++ "        }," ++ nl in
          code ++ "      ]," ++ nl
      | None => code
      end
  | _ => code
  end.

(* Command *)
Definition commandCode (service : DockerComposeService) (code : string)
  : string :=
  let emit (cmd : string) :=
    (* Escape quotes in command *)
    let escapedCommand := replaceChar (ascii_of_nat 34) ("\" ++ dq) cmd in
    let code := code ++ "      deploy: {" ++ nl in
    let code :=
      code ++ "        command: " ++ quoted escapedCommand ++ "," ++ nl in
    code ++ "      }," ++ nl in
  match command service with
  | Some (CommandArray args) => emit (join " " args)
  | Some (CommandString (String c cmd)) => emit (String c cmd)
  | _ => code
  end.

Definition generateAppServiceCode (serviceName : string)
    (service : DockerComposeService) (dbPasswords : Obj string) : string :=
  let code := appHeadCode serviceName in
  let code := environmentCode service dbPasswords code in
  let code := sourceCode serviceName service code in
  let code := volumesCode service code in
  let code := domainsCode service code in
  let code := commandCode service code in
  let code := code ++ "    }," ++ nl in
  code ++ "  });" ++ nl ++ nl.

(** *** generateIndexTs *)

(** The body of the loop that generates the passwords: it records the
    variable of each database and emits its declaration. *)
Definition passwordStep (st : Obj string * string) (dbName : string)
  : Obj string * string :=
  let '(dbPasswords, code) := st in
  let varName := sanitizeVarName dbName ++ "Password" in
  (set dbPasswords dbName varName,
   code ++ "  const " ++ varName ++ " = randomPassword();" ++ nl).

(** A loop whose body can raise. *)
Definition forEach {A S : Type} (items : list A)
    (body : S -> A -> option S) (init : S) : option S :=
  fold_left
    (fun acc item =>
       match acc with
       | Some st => body st item
       | None => None
       end)
    items (Some init).

(** [`${x}`] for a password variable read from [dbPasswords]. *)
Definition showVar (v : option string) : string :=
  match v with
  | Some s => s
  | None => "undefined"
  end.

Definition supportedDatabases : list string :=
  ["postgres"; "mysql"; "mariadb"; "mongo"; "redis"].

(** What an object inherits under a name of [Object.prototype]: a
    function, or the prototype itself. Read as a service, it has none
    of the fields of one. *)
Definition inheritedMember : DockerComposeService :=
  {| image := None; build := None; command := None;
     environment := None; ports := None; volumes := None |}.

(** [compose.services[name]]: the service declared under the name;
    else, for a name that every object inherits, the inherited member;
    else [undefined]. *)
Definition serviceNamed (compose : DockerCompose) (name : string)
  : option DockerComposeService :=
  match get (services compose) name with
  | Some service => Some service
  | None => if inherited name then Some inheritedMember else None
  end.

(** The body of the loop that generates the database services. *)
Definition databaseStep (compose : DockerCompose) (dbPasswords : Obj string)
    (code : string) (dbName : string) : option string :=
  match serviceNamed compose dbName with
  | None => None
  | Some service =>
      let dbType :=
        detectDatabaseType
          (match image service with
           | Some i => orElse i ""
           | None => ""
           end) in
      let code :=
        code ++ "  // " ++ dbName ++ " Service ("
             ++ match dbType with
                | Some t => orElse t "database"
                | None => "database"
                end
             ++ ")" ++ nl in
      match dbType with
      | Some t =>
          if existsb (String.eqb t) supportedDatabases then
            let code := code ++ "  services.push({" ++ nl in
            let code := code ++ "    type: " ++ quoted t ++ "," ++ nl in
            let code := code ++ "    data: {" ++ nl in
            let code :=
              code ++ "      serviceName: input." ++ dbName ++ "ServiceName,"
                   ++ nl in
            let code :=
              code ++ "      password: " ++ showVar (get dbPasswords dbName)
                   ++ "," ++ nl in
            let code := code ++ "    }," ++ nl in
            Some (code ++ "  });" ++ nl ++ nl)
          else
            Some (code ++ generateAppServiceCode dbName service dbPasswords)
      | None =>
          (* Use app service for unsupported databases *)
          Some (code ++ generateAppServiceCode dbName service dbPasswords)
      end
  end.

(** The body of the loops over the application and the other services. *)
Definition appStep (compose : DockerCompose) (dbPasswords : Obj string)
    (code : string) (serviceName : string) : option string :=
  match serviceNamed compose serviceName with
  | None => None
  | Some service =>
      Some (code ++ generateAppServiceCode serviceName service dbPasswords)
  end.

Definition indexPrologue : string :=
  let code :=
    "import { Output, randomPassword, Services } from "
      ++ quoted "~templates-utils" ++ ";" ++ nl
      ++ "import { Input } from " ++ quoted "./meta" ++ ";" ++ nl ++ nl in
  let code :=
    code ++ "export function generate(input: Input): Output {" ++ nl in
  code ++ "  const services: Services = [];" ++ nl ++ nl.

Definition indexEpilogue : string :=
  "  return { services };" ++ nl ++ "}" ++ nl.

Definition generateIndexTs (slug : string) (compose : DockerCompose)
    (analysis : Analysis) : option string :=
  let code := indexPrologue in
  (* Generate passwords for databases *)
  let '(dbPasswords, code) :=
    fold_left passwordStep (databases analysis) ([], code) in
  let code :=
    if (0 <? List.length (databases analysis))%nat then code ++ nl
    else code in
  (* Generate database services *)
  match forEach (databases analysis) (databaseStep compose dbPasswords) code with
  | None => None
  | Some code =>
      (* Generate app services *)
      match forEach (apps analysis) (appStep compose dbPasswords) code with
      | None => None
      | Some code =>
          (* Generate other services *)
          match forEach (otherServices analysis)
                  (appStep compose dbPasswords) code with
          | None => None
          | Some code => Some (code ++ indexEpilogue)
          end
      end
  end.

(** *** generateMetaYaml: the schema *)

Record SchemaProperty : Type := {
  propType : string;
  title : string;
  default : option string
}.

Record Schema : Type := {
  required : list string;
  properties : Obj SchemaProperty
}.

Definition initialSchema : Schema :=
  {| required := ["projectName"];
     properties :=
       [("projectName",
         {| propType := "string"; title := "Project Name";
            default := None |})] |}.

(** [schema.properties[k] = p] *)
Definition setProperty (schema : Schema) (k : string) (p : SchemaProperty)
  : Schema :=
  {| required := required schema;
     properties := set (properties schema) k p |}.

(** [schema.required.push(k)] *)
Definition pushRequired (schema : Schema) (k : string) : Schema :=
  {| required := push (required schema) k;
     properties := properties schema |}.

(** The body of the loop over the environment of one service. *)
Definition envFieldStep (serviceName : string) (schema : Schema)
    (entry : string * string) : Schema :=
  let '(key, value) := entry in
  let envFieldName := serviceName ++ "_" ++ key in
  setProperty schema envFieldName
    {| propType := "string";
       title := serviceName ++ ": " ++ key;
       default := Some value |}.

(** The body of the loop over [allServices]. *)
Definition serviceFieldsStep (compose : DockerCompose) (schema : Schema)
    (serviceName : string) : option Schema :=
  let service := serviceNamed compose serviceName in
  let fieldName := serviceName ++ "ServiceName" in
  let schema :=
    setProperty schema fieldName
      {| propType := "string";
         title := serviceName ++ " Service Name";
         default := Some serviceName |} in
  let schema := pushRequired schema fieldName in
  match service with
  | None => None
  | Some service =>
      (* Add image field *)
      let schema :=
        match image service with
        | Some (String c i) =>
            let imageField := serviceName ++ "ServiceImage" in
            let schema :=
              setProperty schema imageField
                {| propType := "string";
                   title := serviceName ++ " Docker Image";
                   default := Some (String c i) |} in
            pushRequired schema imageField
        | _ => schema
        end in
      (* Add environment variables as fields *)
      let schema :=
        match environment service with
        | Some env =>
            let envVars := parseEnvironment env in
            fold_left (envFieldStep serviceName) (entries envVars) schema
        | None => schema
        end in
      Some schema
  end.

(** The [schema] object that [generateMetaYaml] builds and embeds in the
    document it serialises. *)
Definition metaSchema (slug : string) (compose : DockerCompose)
    (analysis : Analysis) : option Schema :=
  let allServices :=
    (databases analysis ++ apps analysis ++ otherServices analysis)%list in
  forEach allServices (serviceFieldsStep compose) initialSchema.

End Converter.

(* ================================================================== *)
(** ** The vocabulary of the statements *)
(* ================================================================== *)

Module Spec.
Import Js Converter.

Definition classEqb (a b : ServiceClass) : bool :=
  match a, b with
  | Database, Database | Application, Application | Other, Other => true
  | _, _ => false
  end.

(** The entries of a document that fall in a class, in document order. *)
Definition inClass (c : ServiceClass)
    (entry : string * DockerComposeService) : bool :=
  classEqb (classify (fst entry) (snd entry)) c.

Definition namesOfClass (c : ServiceClass)
    (services : Obj DockerComposeService) : list string :=
  map fst (filter (inClass c) services).

(** The list of an [Analysis] that holds a class. *)
Definition place (c : ServiceClass) (acc : Analysis) (name : string)
  : Analysis :=
  match c with
  | Database =>
      {| databases := push (databases acc) name;
         apps := apps acc;
         otherServices := otherServices acc |}
  | Application =>
      {| databases := databases acc;
         apps := push (apps acc) name;
         otherServices := otherServices acc |}
  | Other =>
      {| databases := databases acc;
         apps := apps acc;
         otherServices := push (otherServices acc) name |}
  end.

(** The classifier in the words of the specification: one lowercase
    haystack, the image reference followed by the declared name, is
    searched for the keywords; an image or build reference that is
    present makes an application. *)
Definition haystack (name : string) (service : DockerComposeService)
  : string :=
  toLowerCase
    (match image service with
     | Some i => i
     | None => ""
     end ++ name).

Definition isPresent {A} (o : option A) : bool :=
  match o with
  | Some _ => true
  | None => false
  end.

Definition classifySpec (name : string) (service : DockerComposeService)
  : ServiceClass :=
  if existsb (fun kw => includes (haystack name service) kw) dbImages
  then Database
  else if isPresent (image service) || isPresent (build service)
       then Application
       else Other.

(** A keyword of the table occurs in the lowercase image reference or in
    the lowercase declared name. *)
Definition keywordHit (name : string) (service : DockerComposeService)
  : Prop :=
  exists kw, In kw dbImages /\
    (includes (imageLower service) kw = true
     \/ includes (toLowerCase name) kw = true).



(** A string that begins with a decimal integer: after white space and
    one optional sign comes a digit. *)
Definition startsWithDigit (s : string) : bool :=
  match s with
  | String c _ =>
      match digitValue c with
      | Some _ => true
      | None => false
      end
  | EmptyString => false
  end.

Definition beginsWithInteger (s : string) : bool :=
  match trimStart s with
  | String "-" r => startsWithDigit r
  | String "+" r => startsWithDigit r
  | body => startsWithDigit body
  end.

(** The decimal numeral of a natural number, as a port is written. *)
Definition numeral (n : N) : string := numberToString (Int (Z.of_N n)).

Definition isNaN (n : Number) : bool :=
  match n with
  | NaN => true
  | _ => false
  end.

(** An integer that a double holds whatever its value: below 2^53. *)
Definition safeInteger (n : N) : Prop := (n < 2 ^ 53)%N.

(** The concatenation of a list of texts. *)
Definition concatAll (texts : list string) : string :=
  fold_right String.append "" texts.

(** The secret of a database: the variable that holds it and the
    statement that generates it. *)
Definition passwordVar (dbName : string) : string :=
  sanitizeVarName dbName ++ "Password".

Definition secretStatement (dbName : string) : string :=
  "  const " ++ passwordVar dbName ++ " = randomPassword();" ++ nl.

(** The object [dbPasswords] once the password loop has run. *)
Definition passwordTable (dbNames : list string) : Obj string :=
  fst (fold_left passwordStep dbNames ([], "")).

(** The declaration of a managed database service of engine [t]: it
    carries the runtime-name reference and the secret [secret]. *)
Definition managedDeclaration (t dbName secret : string) : string :=
  "  // " ++ dbName ++ " Service (" ++ t ++ ")" ++ nl
  ++ "  services.push({" ++ nl
  ++ "    type: " ++ quoted t ++ "," ++ nl
  ++ "    data: {" ++ nl
  ++ "      serviceName: input." ++ dbName ++ "ServiceName," ++ nl
  ++ "      password: " ++ secret ++ "," ++ nl
  ++ "    }," ++ nl
  ++ "  });" ++ nl ++ nl.

(** The declaration of a database service that is emitted as an
    application. *)
Definition fallbackDeclaration (dbName : string)
    (service : DockerComposeService) (dbPasswords : Obj string) : string :=
  "  // " ++ dbName ++ " Service (database)" ++ nl
  ++ generateAppServiceCode dbName service dbPasswords.

(** [service.image || ''] *)
Definition imageOrEmpty (service : DockerComposeService) : string :=
  match image service with
  | Some i => orElse i ""
  | None => ""
  end.

(** The declaration that the database loop emits for a service. *)
Definition databaseDeclaration (dbName : string)
    (service : DockerComposeService) (dbPasswords : Obj string) : string :=
  match detectDatabaseType (imageOrEmpty service) with
  | Some t => managedDeclaration t dbName (showVar (get dbPasswords dbName))
  | None => fallbackDeclaration dbName service dbPasswords
  end.

Definition databaseText (compose : DockerCompose) (dbPasswords : Obj string)
    (dbName : string) : string :=
  match get (services compose) dbName with
  | Some service => databaseDeclaration dbName service dbPasswords
  | None => ""
  end.

Definition appText (compose : DockerCompose) (dbPasswords : Obj string)
    (serviceName : string) : string :=
  match get (services compose) serviceName with
  | Some service => generateAppServiceCode serviceName service dbPasswords
  | None => ""
  end.

(** The normalised environment of a service and the text of its
    entries in the emitted source. *)
Definition envEntries (service : DockerComposeService)
  : list (string * string) :=
  entries
    (parseEnvironment
       (match environment service with
        | Some env => env
        | None => EnvRecord []
        end)).

Definition envLine (dbPasswords : Obj string) (entry : string * string)
  : string :=
  "        `" ++ fst entry ++ "="
  ++ interpolateEnvValue (snd entry) dbPasswords ++ "`," ++ nl.

Definition envBlock (service : DockerComposeService)
    (dbPasswords : Obj string) : string :=
  match envEntries service with
  | [] => ""
  | es =>
      "      env: [" ++ nl
      ++ concatAll (map (envLine dbPasswords) es)
      ++ "      ].join(" ++ quoted "\n" ++ ")," ++ nl
  end.

(** The writes to [schema.properties] that [generateMetaYaml] performs
    for one service, in the order it performs them. *)
Definition serviceWrites (serviceName : string)
    (service : DockerComposeService) : list (string * SchemaProperty) :=
  let nameWrite :=
    [(serviceName ++ "ServiceName",
      {| propType := "string";
         title := serviceName ++ " Service Name";
         default := Some serviceName |})] in
  let imageWrite :=
    match image service with
    | Some (String c i) =>
        [(serviceName ++ "ServiceImage",
          {| propType := "string";
             title := serviceName ++ " Docker Image";
             default := Some (String c i) |})]
    | _ => []
    end in
  let envWrites :=
    match environment service with
    | Some env =>
        map (fun entry : string * string =>
               (serviceName ++ "_" ++ fst entry,
                {| propType := "string";
                   title := serviceName ++ ": " ++ fst entry;
                   default := Some (snd entry) |}))
          (entries (parseEnvironment env))
    | None => []
    end in
  (nameWrite ++ imageWrite ++ envWrites)%list.

(** All the writes of a run, over the services in the order of
    [allServices]. *)
Definition schemaWrites (compose : DockerCompose) (names : list string)
  : list (string * SchemaProperty) :=
  flat_map
    (fun serviceName =>
       match get (services compose) serviceName with
       | Some service => serviceWrites serviceName service
       | None => []
       end)
    names.

(** The entries are listed as an object enumerates them: the keys are
    distinct, and no key comes after a key that it precedes. *)
Definition enumerated {V} (o : Obj V) : Prop :=
  NoDup (keys o)
  /\ StronglySorted (fun k k' => precedes k' k = false) (keys o).

(** The body of a template literal, as the generated source holds it
    between backticks: a backslash escapes the character after it, and
    [${] whose dollar sign is not escaped opens a substitution that the
    next [}] closes. [liveSubstitutions] lists the expressions of the
    substitutions, the parts of the text that are evaluated when the
    literal is. *)
Inductive TemplateMode : Type :=
| inText
| afterBackslash
| afterDollar
| inExpression (expr : string).

Fixpoint scanTemplate (mode : TemplateMode) (body : string) : list string :=
  match body with
  | EmptyString => []
  | String c rest =>
      match mode with
      | afterBackslash => scanTemplate inText rest
      | inExpression expr =>
          if Ascii.eqb c "}" then expr :: scanTemplate inText rest
          else scanTemplate (inExpression (expr ++ String c EmptyString)) rest
      | afterDollar =>
          if Ascii.eqb c "{" then scanTemplate (inExpression "") rest
          else if Ascii.eqb c "\" then scanTemplate afterBackslash rest
          else if Ascii.eqb c "$" then scanTemplate afterDollar rest
          else scanTemplate inText rest
      | inText =>
          if Ascii.eqb c "\" then scanTemplate afterBackslash rest
          else if Ascii.eqb c "$" then scanTemplate afterDollar rest
          else scanTemplate inText rest
      end
  end.

Definition liveSubstitutions (body : string) : list string :=
  scanTemplate inText body.

(** A sequence of writes [o[k] = v], performed in order from [o]. *)
Definition applyWrites {V} (o : Obj V) (writes : list (string * V))
  : Obj V :=
  fold_left (fun acc w => set acc (fst w) (snd w)) writes o.


Definition lastWrite {V} (writes : list (string * V)) (k : string)
  : option V :=
  get (rev writes) k.

End Spec.

(* ================================================================== *)
(** ** Sample documents *)
(* ================================================================== *)

Module Samples.
Import Js Converter.

Definition imageService (img : string) : DockerComposeService :=
  {| image := Some img; build := None; command := None;
     environment := None; ports := None; volumes := None |}.

(** The document of the converter's guide. *)
Definition web : DockerComposeService :=
  {| image := Some "nginx:alpine"; build := None; command := None;
     environment := Some (EnvArray ["NGINX_HOST=example.com"]);
     ports := Some ["80:80"];
     volumes := Some ["./nginx.conf:/etc/nginx/nginx.conf"] |}.

Definition api : DockerComposeService :=
  {| image := Some "node:18"; build := None;
     command := Some (CommandString "npm start");
     environment :=
       Some (EnvRecord
               [("DATABASE_URL", "postgres://user:pass@db:5432/mydb");
                ("REDIS_URL", "redis://redis:6379")]);
     ports := Some ["3000:3000"]; volumes := None |}.

Definition db : DockerComposeService :=
  {| image := Some "postgres:15"; build := None; command := None;
     environment := Some (EnvRecord [("POSTGRES_PASSWORD", "example")]);
     ports := None;
     volumes := Some ["db-data:/var/lib/postgresql/data"] |}.

Definition guide : DockerCompose :=
  {| services := [("web", web); ("api", api); ("db", db);
                  ("redis", imageService "redis:alpine")] |}.

(** The database-detection scenario, the application first. *)
Definition dbAndApi : DockerCompose :=
  {| services := [("api", api); ("db", db)] |}.

(** A keyword that only the concatenation of image and name spells. *)
Definition splitKeyword : DockerComposeService := imageService "registry/my".



(** An analysis that does not come from the document it is used
    with: it names a service [cache]. *)
Definition staleAnalysis : Analysis :=
  {| databases := ["db"]; apps := ["api"; "cache"]; otherServices := [] |}.

(** An analysis that names [toString], which the document does not
    declare and every object inherits. *)
Definition inheritedAnalysis : Analysis :=
  {| databases := ["db"]; apps := ["api"; "toString"]; otherServices := [] |}.


End Samples.

(* ================================================================== *)
(** ** The rest of the converter: validation, metadata, review notes *)
(* ================================================================== *)

Module Scaffold.
Import Js Converter.

(** [isUrl] *)
Definition isUrl (path : string) : bool :=
  startsWith path "http://" || startsWith path "https://".

(** The test [templateSlug.match(/^[a-z0-9-]+$/)] of [convert]: one
    character or more, each a lowercase letter, a digit or a hyphen. *)
Definition isSlugChar (c : ascii) : bool :=
  let n := nat_of_ascii c in
  (((97 <=? n) && (n <=? 122)) || ((48 <=? n) && (n <=? 57))
   || (n =? 45))%nat.

Fixpoint allSlugChars (s : string) : bool :=
  match s with
  | EmptyString => true
  | String c s' => isSlugChar c && allSlugChars s'
  end.

Definition validSlug (templateSlug : string) : bool :=
  match templateSlug with
  | EmptyString => false
  | String _ _ => allSlugChars templateSlug
  end.

Definition upperChar (c : ascii) : ascii :=
  let n := nat_of_ascii c in
  if ((97 <=? n) && (n <=? 122))%nat then ascii_of_nat (n - 32) else c.

(** [s.toUpperCase()] on ASCII text *)
Fixpoint toUpperCase (s : string) : string :=
  match s with
  | EmptyString => EmptyString
  | String c s' => String (upperChar c) (toUpperCase s')
  end.

(** [s.charAt(0)] and [s.slice(1)] *)
Definition charAt0 (s : string) : string :=
  match s with
  | EmptyString => EmptyString
  | String c _ => String c EmptyString
  end.

Definition slice1 (s : string) : string :=
  match s with
  | EmptyString => EmptyString
  | String _ s' => s'
  end.

(** [`${n}`] for the length of an array. *)
Definition showLength {A} (a : list A) : string :=
  numberToString (Int (Z.of_nat (List.length a))).

(** The object [meta] that [generateMetaYaml] passes to
    [yaml.stringify]; [today] is the date that
    [new Date().toISOString().split('T')[0]] gives. *)
Module Meta.
Record t : Type := {
  name : string;
  description : string;
  instructions : string;
  changeLog : list (string * string);
  links : list (string * string);
  contributors : list (string * string);
  schema : Schema
}.
End Meta.

Definition generateMeta (slug : string) (compose : DockerCompose)
    (analysis : Analysis) (today : string) : option Meta.t :=
  match metaSchema slug compose analysis with
  | None => None
  | Some schema =>
      let allServices :=
        (databases analysis ++ apps analysis
           ++ otherServices analysis)%list in
      Some
        {| Meta.name := toUpperCase (charAt0 slug) ++ slice1 slug;
           Meta.description :=
             "Converted from docker-compose.yml with "
               ++ showLength allServices ++ " service(s)";
           Meta.instructions :=
             "This template was auto-generated from a docker-compose file. Please review and customize.";
           Meta.changeLog :=
             [(today, "Initial conversion from docker-compose")];
           Meta.links := [];
           Meta.contributors :=
             [("Converted with Easypanel Tools", "https://easypanel.io")];
           Meta.schema := schema |}
  end.



End Scaffold.

(* ================================================================== *)
(** ** More vocabulary *)
(* ================================================================== *)

Module Terms.
Import Js Converter Spec Scaffold.

(** Every [c] of the string stands right after a backslash; [after]
    tells whether the character before the string is one. *)
Fixpoint guardedFrom (c : ascii) (after : bool) (s : string) : bool :=
  match s with
  | EmptyString => true
  | String x s' =>
      (negb (Ascii.eqb x c) || after)
      && guardedFrom c (Ascii.eqb x "\") s'
  end.

Definition guarded (c : ascii) (s : string) : bool := guardedFrom c false s.

(** The fields that [generateMetaYaml] pushes on [schema.required] for
    one service. *)
Definition serviceRequired (serviceName : string)
    (service : DockerComposeService) : list string :=
  let nameField := serviceName ++ "ServiceName" in
  let imageField := serviceName ++ "ServiceImage" in
  nameField :: if truthyString (image service) then [imageField] else [].

Definition requiredFields (compose : DockerCompose) (names : list string)
  : list string :=
  flat_map
    (fun serviceName =>
       match get (services compose) serviceName with
       | Some service => serviceRequired serviceName service
       | None => []
       end)
    names.

(** A service with other ports, or another command. *)
Definition withPorts (service : DockerComposeService)
    (p : option (list string)) : DockerComposeService :=
  {| image := image service; build := build service;
     command := command service; environment := environment service;
     ports := p; volumes := volumes service |}.

Definition withCommand (service : DockerComposeService)
    (c : option CommandSpec) : DockerComposeService :=
  {| image := image service; build := build service;
     command := c; environment := environment service;
     ports := ports service; volumes := volumes service |}.

(** The names of an analysis, in the order of [allServices]. *)
Definition allServices (a : Analysis) : list string :=
  (databases a ++ apps a ++ otherServices a)%list.

(** The name is a key of the services of the document. *)
Definition declared (compose : DockerCompose) (serviceName : string)
  : Prop :=
  In serviceName (keys (services compose)).

(** The lookup of the name among the services answers: the document
    declares the name, or every object inherits it. *)
Definition answered (compose : DockerCompose) (serviceName : string)
  : Prop :=
  declared compose serviceName \/ inherited serviceName = true.

(** The key and the value that a token of the sequence form gives. *)
Definition tokenKey (item : string) : string :=
  match split "=" item with
  | key :: _ => key
  | [] => ""
  end.

Definition tokenValue (item : string) : string :=
  match split "=" item with
  | _ :: valueParts => join "=" valueParts
  | [] => ""
  end.

End Terms.

(* ================================================================== *)
(** ** Facts about lists *)
(* ================================================================== *)

Import Js Converter Spec Samples.

Section ListFacts.

Context {A : Type}.

(** Three predicates of which exactly one holds at every element split
    a list into three filters that together rearrange it. *)
Lemma filter3_permutation (p q r : A -> bool) (l : list A) :
  (forall x, In x l ->
     (p x = true /\ q x = false /\ r x = false)
     \/ (p x = false /\ q x = true /\ r x = false)
     \/ (p x = false /\ q x = false /\ r x = true)) ->
  Permutation (filter p l ++ filter q l ++ filter r l)%list l.
Proof.
  induction l as [|x l IH]; intros Hone; simpl.
  - constructor.
  - assert (Hl : Permutation (filter p l ++ filter q l ++ filter r l)%list l)
      by (apply IH; intros y Hy; apply Hone; now right).
    destruct (Hone x (or_introl eq_refl))
      as [(-> & -> & ->) | [(-> & -> & ->) | (-> & -> & ->)]]; simpl.
    + now constructor.
    + symmetry. apply Permutation_cons_app. now symmetry.
    + symmetry.
      rewrite app_assoc. apply Permutation_cons_app.
      rewrite <- app_assoc. now symmetry.
Qed.

End ListFacts.

(* ================================================================== *)
(** ** The service classifier *)
(* ================================================================== *)

Section Classifier.

Lemma classEqb_eq (a b : ServiceClass) : classEqb a b = true <-> a = b.
Proof. destruct a, b; simpl; split; congruence. Qed.

(** [analyzeStep] appends the name to the list of its class. *)
Lemma analyzeStep_place (acc : Analysis) (name : string)
    (service : DockerComposeService) :
  analyzeStep acc (name, service) = place (classify name service) acc name.
Proof.
  unfold analyzeStep, classify.
  destruct (isDb name service); [reflexivity|].
  destruct (truthyString (image service) || truthyBuild (build service));
    reflexivity.
Qed.

(** The loop of [analyzeServices], from any accumulator. *)
Lemma analyze_fold (l : list (string * DockerComposeService))
    (acc : Analysis) :
  fold_left analyzeStep l acc =
  {| databases := (databases acc ++ namesOfClass Database l)%list;
     apps := (apps acc ++ namesOfClass Application l)%list;
     otherServices := (otherServices acc ++ namesOfClass Other l)%list |}.
Proof.
  revert acc.
  induction l as [|[name service] l IH]; intros acc; cbn [fold_left].
  - unfold namesOfClass; simpl. rewrite !app_nil_r. now destruct acc.
  - rewrite IH, analyzeStep_place.
    unfold namesOfClass, inClass; simpl.
    destruct (classify name service); simpl; unfold push;
      rewrite <- ?app_assoc; reflexivity.
Qed.

Lemma analyzeServices_lists (services : Obj DockerComposeService) :
  databases (analyzeServices services) = namesOfClass Database services
  /\ apps (analyzeServices services) = namesOfClass Application services
  /\ otherServices (analyzeServices services) = namesOfClass Other services.
Proof.
  unfold analyzeServices, entries. rewrite analyze_fold. simpl. auto.
Qed.

Lemma in_namesOfClass (c : ServiceClass) (l : Obj DockerComposeService)
    (n : string) :
  In n (namesOfClass c l) <->
  exists service, In (n, service) l /\ classify n service = c.
Proof.
  unfold namesOfClass. rewrite in_map_iff. split.
  - intros [[n' service] [Hn Hin]]. simpl in Hn. subst n'.
    apply filter_In in Hin as [Hin Hc].
    unfold inClass in Hc. simpl in Hc. apply classEqb_eq in Hc.
    now exists service.
  - intros [service [Hin Hc]]. exists (n, service). split; [reflexivity|].
    apply filter_In. split; [assumption|].
    unfold inClass. simpl. now apply classEqb_eq.
Qed.

(** In an object a key has one value. *)
Lemma NoDup_keys_functional {V} (o : Obj V) (k : string) (v w : V) :
  NoDup (keys o) -> In (k, v) o -> In (k, w) o -> v = w.
Proof.
  unfold keys. induction o as [|[k' u] o IH]; simpl; intros Hnd Hv Hw.
  - contradiction.
  - inversion Hnd as [|? ? Hnotin Hnd']; subst.
    destruct Hv as [Hv|Hv], Hw as [Hw|Hw].
    + congruence.
    + inversion Hv; subst. exfalso. apply Hnotin.
      apply in_map_iff. now exists (k, w).
    + inversion Hw; subst. exfalso. apply Hnotin.
      apply in_map_iff. now exists (k, v).
    + now apply IH.
Qed.

Lemma namesOfClass_disjoint (c d : ServiceClass)
    (l : Obj DockerComposeService) (n : string) :
  NoDup (keys l) -> c <> d ->
  ~ (In n (namesOfClass c l) /\ In n (namesOfClass d l)).
Proof.
  intros Hnd Hcd [Hc Hd].
  apply in_namesOfClass in Hc as [s1 [Hin1 Hc1]].
  apply in_namesOfClass in Hd as [s2 [Hin2 Hc2]].
  assert (s1 = s2) by (eapply NoDup_keys_functional; eassumption).
  subst s2. congruence.
Qed.

Lemma namesOfClass_permutation (l : Obj DockerComposeService) :
  Permutation
    (namesOfClass Database l ++ namesOfClass Application l
       ++ namesOfClass Other l)%list
    (keys l).
Proof.
  unfold namesOfClass, keys. rewrite <- !map_app.
  apply Permutation_map, filter3_permutation.
  intros [n s] _. unfold inClass. simpl.
  destruct (classify n s); simpl; auto.
Qed.

(** C1. On a compose document, whose service names are distinct, the
    lists [databases], [apps] and [otherServices] that [analyzeServices]
    returns are the names of each class in document order; together they
    rearrange the declared names, so their lengths add up to the number
    of services and every declared name is in one of them; and no name
    is in two of them. *)
Theorem analyzeServices_partition (services : Obj DockerComposeService) :
  NoDup (keys services) ->
  let a := analyzeServices services in
  (databases a = namesOfClass Database services
   /\ apps a = namesOfClass Application services
   /\ otherServices a = namesOfClass Other services)
  /\ Permutation (databases a ++ apps a ++ otherServices a)%list
       (keys services)
  /\ (forall n, In n (keys services) <->
        In n (databases a) \/ In n (apps a) \/ In n (otherServices a))
  /\ List.length (databases a) + List.length (apps a)
       + List.length (otherServices a) = List.length services
  /\ (forall n, ~ (In n (databases a) /\ In n (apps a)))
  /\ (forall n, ~ (In n (databases a) /\ In n (otherServices a)))
  /\ (forall n, ~ (In n (apps a) /\ In n (otherServices a)))
  /\ NoDup (databases a) /\ NoDup (apps a) /\ NoDup (otherServices a).
Proof.
  intros Hnd a.
  destruct (analyzeServices_lists services) as (Hd & Ha & Ho).
  fold a in Hd, Ha, Ho.
  assert (Hperm : Permutation
            (databases a ++ apps a ++ otherServices a)%list (keys services))
    by (rewrite Hd, Ha, Ho; apply namesOfClass_permutation).
  assert (Hall : NoDup (databases a ++ apps a ++ otherServices a)%list)
    by (eapply Permutation_NoDup; [symmetry; exact Hperm | exact Hnd]).
  repeat split; try assumption.
  - intros Hin. apply (Permutation_in n (Permutation_sym Hperm)) in Hin.
    rewrite !in_app_iff in Hin. exact Hin.
  - intros Hin. apply (Permutation_in n Hperm).
    rewrite !in_app_iff. exact Hin.
  - apply Permutation_length in Hperm.
    rewrite !length_app in Hperm. unfold keys in Hperm.
    rewrite length_map in Hperm. lia.
  - intros n. rewrite Hd, Ha. now apply namesOfClass_disjoint.
  - intros n. rewrite Hd, Ho. now apply namesOfClass_disjoint.
  - intros n. rewrite Ha, Ho. now apply namesOfClass_disjoint.
  - now apply NoDup_app_remove_r in Hall.
  - apply NoDup_app_remove_l in Hall. now apply NoDup_app_remove_r in Hall.
  - apply NoDup_app_remove_l in Hall. now apply NoDup_app_remove_l in Hall.
Qed.

End Classifier.

Section ClassifierDecision.

Lemma isDb_keywordHit (name : string) (service : DockerComposeService) :
  isDb name service = true <-> keywordHit name service.
Proof.
  unfold isDb, keywordHit. rewrite existsb_exists.
  split; intros [kw [Hin Hhit]]; exists kw; split; try assumption.
  - now apply orb_true_iff in Hhit.
  - now apply orb_true_iff.
Qed.

Lemma isDb_no_keywordHit (name : string) (service : DockerComposeService) :
  isDb name service = false <-> ~ keywordHit name service.
Proof.
  rewrite <- isDb_keywordHit. destruct (isDb name service); split;
    congruence.
Qed.

(** C2, as the code decides it. The two lowercase strings, image
    reference and declared name, are searched separately: a service is a
    database iff a keyword occurs in one of them; otherwise it is an
    application iff its image or build reference is truthy (present and
    not the empty string), and other otherwise. [analyzeStep] files the
    name under that class. *)
Theorem classify_decision (name : string) (service : DockerComposeService) :
  (forall acc, analyzeStep acc (name, service)
               = place (classify name service) acc name)
  /\ (classify name service = Database <-> keywordHit name service)
  /\ (classify name service = Application <->
        ~ keywordHit name service
        /\ (truthyString (image service) = true
            \/ truthyBuild (build service) = true))
  /\ (classify name service = Other <->
        ~ keywordHit name service
        /\ truthyString (image service) = false
        /\ truthyBuild (build service) = false).
Proof.
  split; [intros acc; apply analyzeStep_place|].
  rewrite <- isDb_no_keywordHit, <- isDb_keywordHit.
  unfold classify.
  destruct (isDb name service);
    destruct (truthyString (image service));
    destruct (truthyBuild (build service)); simpl;
    repeat split; intros; try congruence; intuition congruence.
Qed.

End ClassifierDecision.

(* ================================================================== *)
(** ** Facts about strings *)
(* ================================================================== *)

Section StringFacts.

Lemma sapp_assoc (a b c : string) : (a ++ b) ++ c = a ++ (b ++ c).
Proof. induction a as [|x a IH]; simpl; [reflexivity|now rewrite IH]. Qed.

Lemma sapp_nil_r (a : string) : a ++ "" = a.
Proof. induction a as [|x a IH]; simpl; [reflexivity|now rewrite IH]. Qed.

Lemma split_not_nil (sep : ascii) (s : string) : split sep s <> [].
Proof.
  destruct s as [|c s]; simpl; [discriminate|].
  destruct (Ascii.eqb c sep); [discriminate|].
  destruct (split sep s); discriminate.
Qed.

(** A string without the separator is one segment. *)
Lemma split_no_sep (sep : ascii) (s : string) :
  mem sep s = false -> split sep s = [s].
Proof.
  induction s as [|c s IH]; simpl; intros H; [reflexivity|].
  apply orb_false_iff in H as [Hc Hs].
  rewrite Hc, (IH Hs). reflexivity.
Qed.

(** The first separator ends the first segment. *)
Lemma split_first (sep : ascii) (k v : string) :
  mem sep k = false ->
  split sep (k ++ String sep v) = k :: split sep v.
Proof.
  induction k as [|c k IH]; simpl; intros H.
  - now rewrite Ascii.eqb_refl.
  - apply orb_false_iff in H as [Hc Hk].
    rewrite Hc, (IH Hk). reflexivity.
Qed.

(** No segment holds the separator. *)
Lemma split_segments (sep : ascii) (s : string) :
  Forall (fun seg => mem sep seg = false) (split sep s).
Proof.
  induction s as [|c s IH]; simpl.
  - repeat constructor.
  - destruct (Ascii.eqb c sep) eqn:Hc.
    + constructor; [reflexivity|assumption].
    + destruct (split sep s) as [|seg segs].
      * repeat constructor. simpl. now rewrite Hc.
      * inversion IH; subst. constructor; [|assumption].
        simpl. now rewrite Hc.
Qed.

Lemma join_head_char (sep : string) (c : ascii) (seg : string)
    (segs : list string) :
  join sep (String c seg :: segs) = String c (join sep (seg :: segs)).
Proof. destruct segs; reflexivity. Qed.

Lemma join_cons (sep p : string) (ps : list string) :
  ps <> [] -> join sep (p :: ps) = p ++ sep ++ join sep ps.
Proof. destruct ps; [congruence|reflexivity]. Qed.

(** Joining the segments with the separator gives the string back. *)
Lemma join_split (sep : ascii) (s : string) :
  join (String sep "") (split sep s) = s.
Proof.
  induction s as [|c s IH]; simpl; [reflexivity|].
  pose proof (split_not_nil sep s) as Hne.
  destruct (Ascii.eqb c sep) eqn:Hc.
  - apply Ascii.eqb_eq in Hc. subst c.
    rewrite (join_cons _ _ _ Hne), IH. reflexivity.
  - destruct (split sep s) as [|seg segs]; [congruence|].
    now rewrite join_head_char, IH.
Qed.

(** A token has one segment exactly when it has no separator. *)
Lemma split_length_one (sep : ascii) (s : string) :
  List.length (split sep s) < 2 <-> mem sep s = false.
Proof.
  split.
  - induction s as [|c s IH]; simpl; [reflexivity|].
    destruct (Ascii.eqb c sep) eqn:Hc.
    + pose proof (split_not_nil sep s).
      destruct (split sep s); simpl; [congruence|lia].
    + destruct (split sep s) as [|seg segs] eqn:Hs; simpl in *.
      * exfalso. now apply (split_not_nil sep s).
      * intros Hlen. apply IH. simpl. lia.
  - intros H. rewrite (split_no_sep _ _ H). simpl. lia.
Qed.

Lemma replaceChar_app (c : ascii) (rep a b : string) :
  replaceChar c rep (a ++ b) = replaceChar c rep a ++ replaceChar c rep b.
Proof.
  induction a as [|x a IH]; simpl; [reflexivity|].
  now rewrite IH, sapp_assoc.
Qed.

Lemma escapeTemplate_app (a b : string) :
  escapeTemplate (a ++ b) = escapeTemplate a ++ escapeTemplate b.
Proof. unfold escapeTemplate. now rewrite !replaceChar_app. Qed.

Lemma escapeTemplate_cons (c : ascii) (s : string) :
  escapeTemplate (String c s)
  = (if Ascii.eqb c "`" then "\`"
     else if Ascii.eqb c "$" then "\$"
          else String c "")
    ++ escapeTemplate s.
Proof.
  change (String c s) with (String c "" ++ s).
  rewrite escapeTemplate_app. f_equal.
  unfold escapeTemplate. cbn [replaceChar].
  destruct (Ascii.eqb_spec c "`") as [->|Hb]; [reflexivity|].
  cbn [append replaceChar].
  destruct (Ascii.eqb_spec c "$") as [->|Hd]; reflexivity.
Qed.

End StringFacts.

(* ================================================================== *)
(** ** parseVolume *)
(* ================================================================== *)

Section Volumes.

(** The result for a token with at least two segments. *)
Lemma parseVolume_segments (vol source target : string)
    (rest : list string) :
  split ":" vol = source :: target :: rest ->
  parseVolume vol =
  if startsWith source "/" || startsWith source "./" then
    {| type := bind; name := source;
       containerPath := target; hostPath := Some source |}
  else
    {| type := volume; name := source;
       containerPath := target; hostPath := None |}.
Proof. intros H. unfold parseVolume. rewrite H. reflexivity. Qed.

(** Which tokens the code takes for a bind mount. *)
Lemma parseVolume_bind_iff (vol source target : string)
    (rest : list string) :
  split ":" vol = source :: target :: rest ->
  (type (parseVolume vol) = bind <->
   startsWith source "/" = true \/ startsWith source "./" = true).
Proof.
  intros H. rewrite (parseVolume_segments _ _ _ _ H).
  rewrite <- orb_true_iff.
  destruct (startsWith source "/" || startsWith source "./"); simpl;
    split; congruence.
Qed.

(** C6 at a source that begins with the parent-directory marker: the
    code tests the prefixes [/] and [./] only, so the token is taken for
    a named volume whose name is the relative path, and the emitter
    writes a volume entry for it instead of the bind-mount note. *)
Theorem parseVolume_parent_directory :
  startsWith "../data" "../" = true
  /\ parseVolume "../data:/data" =
     {| type := volume; name := "../data";
        containerPath := "/data"; hostPath := None |}
  /\ type (parseVolume "./data:/data") = bind
  /\ type (parseVolume "/data:/data") = bind.
Proof. repeat split. Qed.

(** C7, as the code does it. A token without a colon is not set aside:
    [parseVolume] returns a named volume called [unknown] whose
    container path is the token itself, and the emitter writes the
    ordinary volume entry for it. *)
Theorem parseVolume_single_segment (vol : string) :
  List.length (split ":" vol) < 2 ->
  parseVolume vol =
    {| type := volume; name := "unknown";
       containerPath := vol; hostPath := None |}
  /\ forall code,
       mountCode code vol =
       code ++ "        {" ++ nl
            ++ "          type: " ++ quoted "volume" ++ "," ++ nl
            ++ "          name: " ++ quoted "unknown" ++ "," ++ nl
            ++ "          mountPath: " ++ quoted vol ++ "," ++ nl
            ++ "        }," ++ nl.
Proof.
  intros Hlen.
  assert (Hp : parseVolume vol =
               {| type := volume; name := "unknown";
                  containerPath := vol; hostPath := None |}).
  { unfold parseVolume.
    destruct (Nat.leb_spec 2 (List.length (split ":" vol))); [lia|].
    reflexivity. }
  split; [exact Hp|].
  intros code. unfold mountCode. rewrite Hp. cbn [type name containerPath].
  now rewrite !sapp_assoc.
Qed.

(** C10. A token with three or more segments is parsed like its first
    two: the name is the first segment, the container path is exactly
    the second, and whatever follows has no part in the result. *)
Theorem parseVolume_extra_segments (vol : string) :
  3 <= List.length (split ":" vol) ->
  exists source target rest,
    split ":" vol = source :: target :: rest
    /\ rest <> []
    /\ name (parseVolume vol) = source
    /\ containerPath (parseVolume vol) = target
    /\ parseVolume vol = parseVolume (source ++ ":" ++ target).
Proof.
  intros Hlen.
  destruct (split ":" vol) as [|source [|target [|opt rest]]] eqn:Hs;
    simpl in Hlen; try lia.
  exists source, target, (opt :: rest).
  pose proof (split_segments ":" vol) as Hseg. rewrite Hs in Hseg.
  inversion Hseg as [|? ? Hsrc Hseg']; subst.
  inversion Hseg' as [|? ? Htgt _]; subst.
  assert (Htwo : split ":" (source ++ ":" ++ target) = [source; target]).
  { change (source ++ ":" ++ target) with (source ++ String ":" target).
    rewrite (split_first _ _ _ Hsrc), (split_no_sep _ _ Htgt).
    reflexivity. }
  rewrite (parseVolume_segments _ _ _ _ Hs).
  rewrite (parseVolume_segments _ _ _ _ Htwo).
  repeat split; try discriminate;
    destruct (startsWith source "/" || startsWith source "./"); reflexivity.
Qed.

End Volumes.

(* ================================================================== *)
(** ** parseEnvironment *)
(* ================================================================== *)

Section Environment.

Lemma orElse_empty (s : string) : orElse s "" = s.
Proof. now destruct s. Qed.



(** Writing a key that the object lacks appends the entry. *)
Lemma set_fresh {V} (o : Obj V) (k : string) (v : V) :
  ~ In k (keys o) -> set o k v = (o ++ [(k, v)])%list.
Proof.
  unfold keys. induction o as [|[k' v'] o IH]; simpl; intros Hk.
  - reflexivity.
  - destruct (String.eqb_spec k' k) as [->|Hne].
    + exfalso. apply Hk. now left.
    + rewrite IH; [reflexivity|]. intros Hin. apply Hk. now right.
Qed.






End Environment.

(* ================================================================== *)
(** ** parseInt and parsePort *)
(* ================================================================== *)

Section Ports.

Lemma readDigits_seen (acc : Z) (s : string) :
  exists n, readDigits true acc s = Some n.
Proof.
  revert acc. induction s as [|c s IH]; intros acc; simpl.
  - now exists acc.
  - destruct (digitValue c); [apply IH|now exists acc].
Qed.

Lemma readDigits_startsWithDigit (s : string) :
  isPresent (readDigits false 0 s) = startsWithDigit s.
Proof.
  destruct s as [|c s]; simpl; [reflexivity|].
  destruct (digitValue c) as [d|]; [|reflexivity].
  destruct (readDigits_seen (10 * 0 + d) s) as [n Hn].
  simpl in Hn. now rewrite Hn.
Qed.

Lemma toDouble_not_NaN (z : Z) : isNaN (toDouble z) = false.
Proof.
  unfold toDouble. cbv zeta.
  destruct (Z.abs z <? 2 ^ 53)%Z; [reflexivity|].
  match goal with
  | |- context [if ?b then Int _ else _] => destruct b
  end; reflexivity.
Qed.

(** [parseInt] gives [NaN] exactly on the strings that do not begin
    with an integer, and a number on the others. *)
Lemma parseInt_isNaN (s : string) :
  isNaN (parseInt s) = negb (beginsWithInteger s).
Proof.
  unfold parseInt, beginsWithInteger.
  assert (Hgen : forall sign rest,
            isNaN match readDigits false 0 rest with
                  | Some n => toDouble (sign * n)
                  | None => NaN
                  end = negb (startsWithDigit rest)).
  { intros sign rest. rewrite <- readDigits_startsWithDigit.
    destruct (readDigits false 0 rest); [apply toDouble_not_NaN|reflexivity]. }
  destruct (trimStart s) as [|c body]; [reflexivity|].
  destruct c as [[] [] [] [] [] [] [] []]; apply Hgen.
Qed.

(** Up to 2^53 an integer is the double that holds it. *)
Lemma toDouble_safe (z : Z) :
  (Z.abs z < 2 ^ 53)%Z -> toDouble z = Int z.
Proof.
  intros Hz. unfold toDouble. cbv zeta.
  destruct (Z.ltb_spec (Z.abs z) (2 ^ 53)); [reflexivity|lia].
Qed.

Lemma safeInteger_abs (n : N) :
  safeInteger n -> (Z.abs (Z.of_N n) < 2 ^ 53)%Z.
Proof.
  unfold safeInteger. intros Hn.
  rewrite Z.abs_eq by apply N2Z.is_nonneg.
  change (2 ^ 53)%Z with (Z.of_N (2 ^ 53)).
  now apply N2Z.inj_lt.
Qed.

(** White space begins with a character that is white space, or with
    one of the bytes 194, 225, 226, 227 and 239. *)
Lemma trimStart_plain (c : ascii) (s : string) :
  isWhiteSpace c = false ->
  (nat_of_ascii c < 128)%nat ->
  trimStart (String c s) = String c s.
Proof.
  intros Hws Hc. cbn [trimStart]. rewrite Hws.
  assert (H2 : forall c2, isWhiteSpace2 c c2 = false).
  { intros c2. unfold isWhiteSpace2.
    destruct (Nat.eqb_spec (nat_of_ascii c) 194); [lia|reflexivity]. }
  assert (H3 : forall c2 c3, isWhiteSpace3 c c2 c3 = false).
  { intros c2 c3. unfold isWhiteSpace3. cbv zeta.
    destruct (Nat.eqb_spec (nat_of_ascii c) 225); [lia|].
    destruct (Nat.eqb_spec (nat_of_ascii c) 226); [lia|].
    destruct (Nat.eqb_spec (nat_of_ascii c) 227); [lia|].
    destruct (Nat.eqb_spec (nat_of_ascii c) 239); [lia|].
    reflexivity. }
  destruct s as [|c2 [|c3 s]]; [reflexivity|now rewrite H2|].
  now rewrite H2, H3.
Qed.

Lemma readDigits_step (seen : bool) (acc d : Z) (c : ascii) (s : string) :
  digitValue c = Some d ->
  readDigits seen acc (String c s) = readDigits true (10 * acc + d) s.
Proof. intros H. simpl. now rewrite H. Qed.

Lemma readDigits_acc (d : Decimal.uint) (acc : positive) :
  readDigits true (Zpos acc) (NilEmpty.string_of_uint d)
  = Some (Zpos (Pos.of_uint_acc d acc)).
Proof.
  revert acc.
  induction d; intros acc;
    cbn [NilEmpty.string_of_uint Pos.of_uint_acc]; [reflexivity|..];
    (erewrite readDigits_step by (cbv; reflexivity);
     rewrite <- IHd; f_equal; lia).
Qed.

Lemma readDigits_uint (seen : bool) (d : Decimal.uint) :
  seen = true \/ d <> Decimal.Nil ->
  readDigits seen 0 (NilEmpty.string_of_uint d)
  = Some (Z.of_N (Pos.of_uint d)).
Proof.
  revert seen.
  induction d; intros seen Hok;
    cbn [NilEmpty.string_of_uint Pos.of_uint].
  - destruct Hok as [->|Hne]; [reflexivity|congruence].
  - erewrite readDigits_step by (cbv; reflexivity). apply IHd. now left.
  - erewrite readDigits_step by (cbv; reflexivity). apply (readDigits_acc d).
  - erewrite readDigits_step by (cbv; reflexivity). apply (readDigits_acc d).
  - erewrite readDigits_step by (cbv; reflexivity). apply (readDigits_acc d).
  - erewrite readDigits_step by (cbv; reflexivity). apply (readDigits_acc d).
  - erewrite readDigits_step by (cbv; reflexivity). apply (readDigits_acc d).
  - erewrite readDigits_step by (cbv; reflexivity). apply (readDigits_acc d).
  - erewrite readDigits_step by (cbv; reflexivity). apply (readDigits_acc d).
  - erewrite readDigits_step by (cbv; reflexivity). apply (readDigits_acc d).
  - erewrite readDigits_step by (cbv; reflexivity). apply (readDigits_acc d).
Qed.

Lemma to_uint_not_nil (p : positive) : Pos.to_uint p <> Decimal.Nil.
Proof.
  intros Hnil.
  pose proof (DecimalPos.Unsigned.of_to p) as H.
  rewrite Hnil in H. discriminate.
Qed.

(* Reading a numeral that begins with a known character. *)
Ltac read_numeral Hr :=
  unfold parseInt;
  rewrite trimStart_plain by (first [reflexivity | cbn; lia]);
  cbv beta iota zeta; rewrite Hr; f_equal; lia.

(** A decimal numeral is read as the double nearest to its integer. *)
Lemma parseInt_decimal (z : Z) : parseInt (decimal z) = toDouble z.
Proof.
  unfold decimal.
  rewrite <- (DecimalZ.of_to z) at 2.
  destruct z as [|p|p]; cbn [Z.to_int].
  - reflexivity.
  - pose proof (to_uint_not_nil p) as Hne.
    pose proof (readDigits_uint false _ (or_intror Hne)) as Hr.
    unfold NilZero.string_of_int, NilZero.string_of_uint.
    cbn [Z.of_int]. unfold Z.of_uint.
    destruct (Pos.to_uint p) eqn:Hd; try congruence;
      cbn [NilEmpty.string_of_uint] in *; read_numeral Hr.
  - pose proof (to_uint_not_nil p) as Hne.
    pose proof (readDigits_uint false _ (or_intror Hne)) as Hr.
    unfold NilZero.string_of_int, NilZero.string_of_uint.
    cbn [Z.of_int]. unfold Z.of_uint.
    destruct (Pos.to_uint p) eqn:Hd; try congruence;
      cbn [NilEmpty.string_of_uint] in *; read_numeral Hr.
Qed.

(** An integer below 2^53 is written with all its digits. *)
Lemma numeral_decimal (n : N) :
  safeInteger n -> numeral n = decimal (Z.of_N n).
Proof.
  intros Hn. apply safeInteger_abs in Hn.
  unfold numeral, numberToString.
  destruct (Z.ltb_spec (Z.abs (Z.of_N n)) (2 ^ 53)); [reflexivity|lia].
Qed.

(** The decimal numeral of an integer below 2^53 is read back as that
    integer. *)
Lemma parseInt_numeral (z : Z) :
  (Z.abs z < 2 ^ 53)%Z -> parseInt (numberToString (Int z)) = Int z.
Proof.
  intros Hz. unfold numberToString.
  destruct (Z.ltb_spec (Z.abs z) (2 ^ 53)); [|lia].
  now rewrite parseInt_decimal, toDouble_safe.
Qed.

Lemma uint_no_colon (d : Decimal.uint) :
  mem ":" (NilEmpty.string_of_uint d) = false.
Proof. induction d; simpl; auto. Qed.

Lemma decimal_no_colon (z : Z) : mem ":" (decimal z) = false.
Proof.
  unfold decimal.
  destruct z as [|p|p]; [reflexivity|..];
    cbn [Z.to_int NilZero.string_of_int];
    unfold NilZero.string_of_uint;
    destruct (Pos.to_uint p) eqn:Hd; try reflexivity;
    rewrite <- Hd; cbn [mem]; apply uint_no_colon.
Qed.

Lemma numeral_no_colon (n : N) :
  safeInteger n -> mem ":" (numeral n) = false.
Proof.
  intros Hn. rewrite (numeral_decimal n Hn). apply decimal_no_colon.
Qed.

Lemma parseInt_numeral_N (n : N) :
  safeInteger n -> parseInt (numeral n) = Int (Z.of_N n).
Proof. intros Hn. apply parseInt_numeral. now apply safeInteger_abs. Qed.

Lemma parsePort_two (port h c : string) :
  split ":" port = [h; c] ->
  parsePort port
  = Some {| hostPort := parseInt h; containerPort := parseInt c |}.
Proof. intros H. unfold parsePort. rewrite H. reflexivity. Qed.

Lemma parsePort_one (port t : string) :
  split ":" port = [t] ->
  parsePort port
  = Some {| hostPort := parseInt t; containerPort := parseInt t |}.
Proof. intros H. unfold parsePort. rewrite H. reflexivity. Qed.

Lemma split_pair (h c : string) :
  mem ":" h = false -> mem ":" c = false ->
  split ":" (h ++ ":" ++ c) = [h; c].
Proof.
  intros Hh Hc.
  change (h ++ ":" ++ c) with (h ++ String ":" c).
  rewrite (split_first _ _ _ Hh).
  now rewrite (split_no_sep _ _ Hc).
Qed.

(** C8, as the code does it. The shape of a port token is its number of
    colon-separated segments and nothing else. Two segments give a
    binding whose sides are [parseInt] of the segments: a pair of
    decimal numerals gives the doubles nearest to the two integers,
    which below 2^53 are the integers themselves. One segment gives a
    binding with both sides [parseInt] of the token. Three segments or
    more give no binding. The container port of a binding is [parseInt]
    of the last segment: [NaN] when that segment does not begin with an
    integer, and a number otherwise. *)
Theorem parsePort_shapes :
  (forall h c : N,
     parsePort (decimal (Z.of_N h) ++ ":" ++ decimal (Z.of_N c))
     = Some {| hostPort := toDouble (Z.of_N h);
               containerPort := toDouble (Z.of_N c) |})
  /\ (forall n : N,
        parsePort (decimal (Z.of_N n))
        = Some {| hostPort := toDouble (Z.of_N n);
                  containerPort := toDouble (Z.of_N n) |})
  /\ (forall h c : N,
        safeInteger h -> safeInteger c ->
        parsePort (numeral h ++ ":" ++ numeral c)
        = Some {| hostPort := Int (Z.of_N h);
                  containerPort := Int (Z.of_N c) |})
  /\ (forall n : N,
        safeInteger n ->
        parsePort (numeral n)
        = Some {| hostPort := Int (Z.of_N n);
                  containerPort := Int (Z.of_N n) |})
  /\ (forall port h c,
        split ":" port = [h; c] ->
        parsePort port
        = Some {| hostPort := parseInt h; containerPort := parseInt c |})
  /\ (forall port t,
        split ":" port = [t] ->
        parsePort port
        = Some {| hostPort := parseInt t; containerPort := parseInt t |})
  /\ (forall port,
        3 <= List.length (split ":" port) -> parsePort port = None)
  /\ (forall port b,
        parsePort port = Some b ->
        containerPort b = parseInt (last (split ":" port) "")
        /\ isNaN (containerPort b)
           = negb (beginsWithInteger (last (split ":" port) ""))).
Proof.
  repeat apply conj.
  - intros h c.
    rewrite (parsePort_two _ (decimal (Z.of_N h)) (decimal (Z.of_N c)))
      by (apply split_pair; apply decimal_no_colon).
    now rewrite !parseInt_decimal.
  - intros n.
    rewrite (parsePort_one _ (decimal (Z.of_N n)))
      by (apply split_no_sep, decimal_no_colon).
    now rewrite parseInt_decimal.
  - intros h c Hh Hc.
    rewrite (parsePort_two _ (numeral h) (numeral c))
      by (apply split_pair; now apply numeral_no_colon).
    now rewrite !parseInt_numeral_N.
  - intros n Hn.
    rewrite (parsePort_one _ (numeral n))
      by (apply split_no_sep; now apply numeral_no_colon).
    now rewrite parseInt_numeral_N.
  - apply parsePort_two.
  - apply parsePort_one.
  - intros port Hlen. unfold parsePort.
    destruct (Nat.eqb_spec (List.length (split ":" port)) 2); [lia|].
    destruct (Nat.eqb_spec (List.length (split ":" port)) 1); [lia|].
    reflexivity.
  - intros port b Hb.
    assert (Hc : containerPort b = parseInt (last (split ":" port) "")).
    { unfold parsePort in Hb.
      destruct (split ":" port) as [|h [|c [|x rest]]];
        simpl in Hb; try discriminate;
        injection Hb as <-; reflexivity. }
    split; [exact Hc|]. rewrite Hc. apply parseInt_isNaN.
Qed.

End Ports.

(* ================================================================== *)
(** ** Objects and loops *)
(* ================================================================== *)

Section Objects.

Context {V : Type}.

Lemma get_set_same (o : Obj V) (k : string) (v : V) :
  get (set o k v) k = Some v.
Proof.
  induction o as [|[k' v'] o IH]; simpl.
  - now rewrite String.eqb_refl.
  - destruct (String.eqb k' k) eqn:Hk; simpl; rewrite Hk; auto.
Qed.

Lemma get_set_other (o : Obj V) (k k' : string) (v : V) :
  k <> k' -> get (set o k v) k' = get o k'.
Proof.
  intros Hne. induction o as [|[k0 v0] o IH]; simpl.
  - destruct (String.eqb_spec k k'); [contradiction|reflexivity].
  - destruct (String.eqb_spec k0 k) as [->|Hk0]; simpl.
    + destruct (String.eqb_spec k k'); [contradiction|reflexivity].
    + destruct (String.eqb k0 k'); [reflexivity|exact IH].
Qed.

Lemma get_app (a b : Obj V) (k : string) :
  get (a ++ b)%list k =
  match get a k with
  | Some v => Some v
  | None => get b k
  end.
Proof.
  induction a as [|[k' v'] a IH]; simpl; [reflexivity|].
  destruct (String.eqb k' k); [reflexivity|exact IH].
Qed.

Lemma In_keys_get (o : Obj V) (k : string) :
  In k (keys o) -> exists v, get o k = Some v.
Proof.
  unfold keys. induction o as [|[k' v'] o IH]; simpl; [contradiction|].
  intros [->|Hin].
  - rewrite String.eqb_refl. now exists v'.
  - destruct (String.eqb k' k); [now exists v'|now apply IH].
Qed.

(** Writing a key that is present changes its value where it stands. *)
Lemma keys_set_present (o : Obj V) (k : string) (v : V) :
  In k (keys o) -> keys (set o k v) = keys o.
Proof.
  unfold keys. induction o as [|[k' v'] o IH]; simpl; [contradiction|].
  intros Hin. destruct (String.eqb_spec k' k) as [->|Hne]; simpl.
  - reflexivity.
  - f_equal. apply IH. destruct Hin; [contradiction|assumption].
Qed.

Lemma keys_set (o : Obj V) (k : string) (v : V) :
  keys (set o k v) = keys o \/ keys (set o k v) = (keys o ++ [k])%list
                               /\ ~ In k (keys o).
Proof.
  destruct (in_dec string_dec k (keys o)) as [Hin|Hout].
  - left. now apply keys_set_present.
  - right. split; [|assumption].
    rewrite (set_fresh _ _ _ Hout). unfold keys. now rewrite map_app.
Qed.


Lemma In_keys_set (o : Obj V) (k k' : string) (v : V) :
  In k' (keys (set o k v)) <-> k' = k \/ In k' (keys o).
Proof.
  destruct (keys_set o k v) as [Heq|[Heq Hout]]; rewrite Heq.
  - split; [auto|]. intros [->|H]; [|assumption].
    destruct (in_dec string_dec k (keys o)) as [Hin|Hno]; [assumption|].
    exfalso. rewrite (set_fresh _ _ _ Hno) in Heq. unfold keys in Heq.
    rewrite map_app in Heq. simpl in Heq.
    apply (f_equal (@List.length string)) in Heq.
    rewrite length_app in Heq. simpl in Heq. lia.
  - rewrite in_app_iff. simpl. intuition auto.
Qed.

Lemma applyWrites_app (o : Obj V) (ws ws' : list (string * V)) :
  applyWrites o (ws ++ ws')%list = applyWrites (applyWrites o ws) ws'.
Proof. unfold applyWrites. now rewrite fold_left_app. Qed.

(** What a key holds after the writes: the last one made to it, or
    what it held before. *)
Lemma get_applyWrites (writes : list (string * V)) (o : Obj V) (k : string) :
  get (applyWrites o writes) k =
  match lastWrite writes k with
  | Some v => Some v
  | None => get o k
  end.
Proof.
  unfold lastWrite. revert o.
  induction writes as [|[k' v'] ws IH]; intros o; simpl; [reflexivity|].
  unfold applyWrites in *. simpl. rewrite IH, get_app.
  destruct (get (rev ws) k); [reflexivity|]. simpl.
  destruct (String.eqb_spec k' k) as [->|Hne].
  - apply get_set_same.
  - now apply get_set_other.
Qed.


Lemma In_keys_applyWrites (writes : list (string * V)) (o : Obj V)
    (k : string) :
  In k (keys (applyWrites o writes)) <->
  In k (keys o) \/ In k (map fst writes).
Proof.
  revert o. induction writes as [|w ws IH]; intros o; simpl.
  - tauto.
  - unfold applyWrites in *. simpl. rewrite IH, In_keys_set.
    intuition auto.
Qed.

End Objects.

Section Loops.

Context {A S : Type}.

Lemma forEach_raised (items : list A) (body : S -> A -> option S) :
  fold_left
    (fun acc item =>
       match acc with
       | Some st => body st item
       | None => None
       end)
    items None = None.
Proof. induction items as [|x items IH]; simpl; auto. Qed.

Lemma forEach_cons (x : A) (items : list A) (body : S -> A -> option S)
    (init : S) :
  forEach (x :: items) body init =
  match body init x with
  | Some st => forEach items body st
  | None => None
  end.
Proof.
  unfold forEach. simpl.
  destruct (body init x); [reflexivity|apply forEach_raised].
Qed.

End Loops.

(* ================================================================== *)
(** ** The schema of generateMetaYaml *)
(* ================================================================== *)

(** A declared service is the one that the lookup finds. *)
Lemma serviceNamed_declared (compose : DockerCompose) (name : string)
    (service : DockerComposeService) :
  get (services compose) name = Some service ->
  serviceNamed compose name = Some service.
Proof. intros Hget. unfold serviceNamed. now rewrite Hget. Qed.

Section SchemaSynthesis.

Variable compose : DockerCompose.

Lemma envFieldStep_fold (serviceName : string)
    (es : list (string * string)) (schema : Schema) :
  properties (fold_left (envFieldStep serviceName) es schema)
  = applyWrites (properties schema)
      (map (fun entry : string * string =>
              (serviceName ++ "_" ++ fst entry,
               {| propType := "string";
                  title := serviceName ++ ": " ++ fst entry;
                  default := Some (snd entry) |}))
         es).
Proof.
  revert schema. induction es as [|[k v] es IH]; intros schema; simpl.
  - reflexivity.
  - rewrite IH. reflexivity.
Qed.

(** One turn of the loop performs the writes of its service. *)
Lemma serviceFieldsStep_writes (schema : Schema) (serviceName : string)
    (service : DockerComposeService) :
  get (services compose) serviceName = Some service ->
  exists schema',
    serviceFieldsStep compose schema serviceName = Some schema'
    /\ properties schema'
       = applyWrites (properties schema) (serviceWrites serviceName service).
Proof.
  intros Hget. unfold serviceFieldsStep.
  rewrite (serviceNamed_declared _ _ _ Hget).
  eexists. split; [reflexivity|].
  unfold serviceWrites. rewrite !applyWrites_app.
  destruct (environment service) as [env|];
    [rewrite envFieldStep_fold|];
    destruct (image service) as [[|c i]|]; reflexivity.
Qed.

(** The whole loop performs the writes of its services in order. *)
Lemma serviceFields_loop (names : list string) (schema : Schema) :
  Forall (fun n => In n (keys (services compose))) names ->
  exists schema',
    forEach names (serviceFieldsStep compose) schema = Some schema'
    /\ properties schema'
       = applyWrites (properties schema) (schemaWrites compose names).
Proof.
  revert schema.
  induction names as [|n names IH]; intros schema Hall.
  - exists schema. split; reflexivity.
  - inversion Hall as [|? ? Hn Hall']; subst.
    destruct (In_keys_get _ _ Hn) as [service Hget].
    destruct (serviceFieldsStep_writes schema n service Hget)
      as [schema1 [Hstep Hprops]].
    destruct (IH schema1 Hall') as [schema2 [Hloop Hprops2]].
    exists schema2. split.
    + rewrite forEach_cons, Hstep. exact Hloop.
    + rewrite Hprops2, Hprops. unfold schemaWrites. cbn [flat_map].
      rewrite Hget. now rewrite applyWrites_app.
Qed.

Lemma namesOfClass_keys (c : ServiceClass) (n : string) :
  In n (namesOfClass c (services compose)) ->
  In n (keys (services compose)).
Proof.
  intros Hin. apply in_namesOfClass in Hin as [service [Hin _]].
  unfold keys. apply in_map_iff. now exists (n, service).
Qed.

Lemma analysis_names_declared :
  let a := analyzeServices (services compose) in
  Forall (fun n => In n (keys (services compose))) (databases a)
  /\ Forall (fun n => In n (keys (services compose))) (apps a)
  /\ Forall (fun n => In n (keys (services compose))) (otherServices a).
Proof.
  destruct (analyzeServices_lists (services compose)) as (Hd & Ha & Ho).
  cbv zeta. rewrite Hd, Ha, Ho.
  repeat split; apply Forall_forall; intros n; apply namesOfClass_keys.
Qed.


End SchemaSynthesis.

(* ================================================================== *)
(** ** The source text of generateIndexTs *)
(* ================================================================== *)

Section Emitter.

(** A loop that appends a text per item appends their concatenation. *)
Lemma fold_left_texts {A} (step : string -> A -> string)
    (text : A -> string) (items : list A) (code : string) :
  (forall c x, step c x = c ++ text x) ->
  fold_left step items code = code ++ concatAll (map text items).
Proof.
  intros Hstep. revert code.
  induction items as [|x items IH]; intros code; simpl.
  - now rewrite sapp_nil_r.
  - now rewrite IH, Hstep, sapp_assoc.
Qed.

Lemma forEach_texts {A} (body : string -> A -> option string)
    (text : A -> string) (items : list A) (code : string) :
  (forall c x, In x items -> body c x = Some (c ++ text x)) ->
  forEach items body code = Some (code ++ concatAll (map text items)).
Proof.
  revert code.
  induction items as [|x items IH]; intros code Hbody.
  - simpl. now rewrite sapp_nil_r.
  - rewrite forEach_cons, Hbody by now left.
    rewrite IH by (intros c y Hy; apply Hbody; now right).
    simpl. now rewrite sapp_assoc.
Qed.

Lemma In_concatAll {A} (text : A -> string) (items : list A) (x : A) :
  In x items ->
  exists pre post, concatAll (map text items) = pre ++ text x ++ post.
Proof.
  induction items as [|y items IH]; simpl; [contradiction|].
  intros [->|Hin].
  - exists "", (concatAll (map text items)). reflexivity.
  - destruct (IH Hin) as [pre [post Heq]].
    exists (text y ++ pre), post. now rewrite Heq, sapp_assoc.
Qed.

(** *** The password loop *)

Lemma passwordStep_fold (dbNames : list string) (dbPasswords : Obj string)
    (code : string) :
  fold_left passwordStep dbNames (dbPasswords, code)
  = (applyWrites dbPasswords (map (fun n => (n, passwordVar n)) dbNames),
     code ++ concatAll (map secretStatement dbNames)).
Proof.
  revert dbPasswords code.
  induction dbNames as [|n dbNames IH]; intros dbPasswords code.
  - simpl. now rewrite sapp_nil_r.
  - cbn [fold_left].
    change (passwordStep (dbPasswords, code) n)
      with (set dbPasswords n (passwordVar n), code ++ secretStatement n).
    rewrite IH. cbn [map concatAll fold_right].
    now rewrite sapp_assoc.
Qed.

Lemma get_keyed {V} (f : string -> V) (l : list string) (n : string) :
  In n l -> get (map (fun k => (k, f k)) l) n = Some (f n).
Proof.
  induction l as [|k l IH]; simpl; [contradiction|].
  intros Hin. destruct (String.eqb_spec k n) as [->|Hne]; [reflexivity|].
  destruct Hin; [contradiction|auto].
Qed.

(** Every database has its own variable in [dbPasswords]. *)
Lemma passwordTable_get (dbNames : list string) (n : string) :
  In n dbNames -> get (passwordTable dbNames) n = Some (passwordVar n).
Proof.
  intros Hin. unfold passwordTable.
  rewrite passwordStep_fold. simpl.
  rewrite get_applyWrites. unfold lastWrite.
  rewrite <- map_rev, get_keyed; [reflexivity|].
  now apply in_rev in Hin.
Qed.

(** *** The database loop *)

Lemma detectDatabaseType_supported (img t : string) :
  detectDatabaseType img = Some t ->
  In t supportedDatabases
  /\ existsb (String.eqb t) supportedDatabases = true
  /\ orElse t "database" = t.
Proof.
  unfold detectDatabaseType.
  repeat match goal with
         | |- context [if ?b then _ else _] => destruct b
         end;
    intros [= <-]; simpl; intuition auto.
Qed.


Lemma databaseStep_declaration (compose : DockerCompose)
    (dbPasswords : Obj string) (code dbName : string)
    (service : DockerComposeService) :
  serviceNamed compose dbName = Some service ->
  databaseStep compose dbPasswords code dbName
  = Some (code ++ databaseDeclaration dbName service dbPasswords).
Proof.
  intros Hget. unfold databaseStep, databaseDeclaration. rewrite Hget.
  fold (imageOrEmpty service).
  destruct (detectDatabaseType (imageOrEmpty service)) as [t|] eqn:Ht.
  - destruct (detectDatabaseType_supported _ _ Ht) as (_ & -> & ->).
    unfold managedDeclaration. now rewrite !sapp_assoc.
  - unfold fallbackDeclaration. now rewrite !sapp_assoc.
Qed.

Lemma databaseStep_text (compose : DockerCompose)
    (dbPasswords : Obj string) (code dbName : string) :
  In dbName (keys (services compose)) ->
  databaseStep compose dbPasswords code dbName
  = Some (code ++ databaseText compose dbPasswords dbName).
Proof.
  intros Hin. destruct (In_keys_get _ _ Hin) as [service Hget].
  unfold databaseText. rewrite Hget.
  now apply databaseStep_declaration, serviceNamed_declared.
Qed.

Lemma appStep_text (compose : DockerCompose)
    (dbPasswords : Obj string) (code serviceName : string) :
  In serviceName (keys (services compose)) ->
  appStep compose dbPasswords code serviceName
  = Some (code ++ appText compose dbPasswords serviceName).
Proof.
  intros Hin. destruct (In_keys_get _ _ Hin) as [service Hget].
  unfold appStep, appText.
  now rewrite (serviceNamed_declared _ _ _ Hget), Hget.
Qed.

(** *** The whole text *)

(** The text emitted for an analysis whose names the document
    declares: prologue, secrets, database declarations, application
    declarations, other declarations, epilogue. *)
Lemma generateIndexTs_text (slug : string) (compose : DockerCompose)
    (a : Analysis) :
  Forall (fun n => In n (keys (services compose))) (databases a) ->
  Forall (fun n => In n (keys (services compose))) (apps a) ->
  Forall (fun n => In n (keys (services compose))) (otherServices a) ->
  let dbPasswords := passwordTable (databases a) in
  generateIndexTs slug compose a
  = Some (indexPrologue
          ++ concatAll (map secretStatement (databases a))
          ++ match databases a with
             | [] => ""
             | _ :: _ => nl
             end
          ++ concatAll (map (databaseText compose dbPasswords) (databases a))
          ++ concatAll (map (appText compose dbPasswords) (apps a))
          ++ concatAll (map (appText compose dbPasswords) (otherServices a))
          ++ indexEpilogue).
Proof.
  intros Hd Ha Ho dbPasswords.
  unfold generateIndexTs. cbv zeta.
  match goal with
  | |- context [fold_left passwordStep ?l ?i] =>
      destruct (fold_left passwordStep l i) as [table code] eqn:Hfold
  end.
  assert (Heq : (table, code)
                = (dbPasswords,
                   indexPrologue
                   ++ concatAll (map secretStatement (databases a)))).
  { rewrite <- Hfold. unfold dbPasswords, passwordTable.
    now rewrite !passwordStep_fold. }
  injection Heq as -> ->.
  rewrite (forEach_texts _ (databaseText compose dbPasswords))
    by (intros c x Hx; apply databaseStep_text;
        exact (proj1 (Forall_forall _ _) Hd x Hx)).
  rewrite (forEach_texts _ (appText compose dbPasswords))
    by (intros c x Hx; apply appStep_text;
        exact (proj1 (Forall_forall _ _) Ha x Hx)).
  rewrite (forEach_texts _ (appText compose dbPasswords))
    by (intros c x Hx; apply appStep_text;
        exact (proj1 (Forall_forall _ _) Ho x Hx)).
  f_equal.
  destruct (databases a); cbn [List.length Nat.ltb Nat.leb];
    rewrite ?sapp_assoc; reflexivity.
Qed.

(** *** The declaration of an application service *)

Lemma envLineCode_text (dbPasswords : Obj string) (code : string)
    (entry : string * string) :
  envLineCode dbPasswords code entry = code ++ envLine dbPasswords entry.
Proof. destruct entry as [k v]. reflexivity. Qed.

Lemma mountCode_text (code vol : string) :
  mountCode code vol = code ++ mountCode "" vol.
Proof.
  unfold mountCode. destruct (type (parseVolume vol)); cbv zeta.
  - change ("" ++ "        {" ++ nl) with ("        {" ++ nl).
    now rewrite !sapp_assoc.
  - reflexivity.
Qed.

Lemma environmentCode_text (service : DockerComposeService)
    (dbPasswords : Obj string) (code : string) :
  environmentCode service dbPasswords code
  = code ++ envBlock service dbPasswords.
Proof.
  unfold environmentCode, envBlock, envEntries, entries, keys. cbv zeta.
  destruct (parseEnvironment _) as [|e es].
  - cbn [map List.length Nat.ltb Nat.leb]. now rewrite sapp_nil_r.
  - change (0 <? List.length (map fst (e :: es)))%nat with true.
    cbv iota.
    rewrite (fold_left_texts _ _ _ _ (envLineCode_text dbPasswords)).
    now rewrite !sapp_assoc.
Qed.

Lemma sourceCode_text (serviceName : string)
    (service : DockerComposeService) :
  exists text, forall code,
    sourceCode serviceName service code = code ++ text.
Proof.
  unfold sourceCode.
  destruct (truthyString (image service));
    [|destruct (truthyBuild (build service))];
    cbv zeta; eexists; intros c; rewrite ?sapp_assoc;
    try reflexivity.
  symmetry. apply sapp_nil_r.
Qed.

Lemma volumesCode_text (service : DockerComposeService) :
  exists text, forall code, volumesCode service code = code ++ text.
Proof.
  unfold volumesCode.
  destruct (volumes service) as [[|v vs]|]; cbv zeta.
  - exists "". intros c. now rewrite sapp_nil_r.
  - eexists. intros c.
    rewrite (fold_left_texts _ _ _ _ mountCode_text).
    rewrite !sapp_assoc. reflexivity.
  - exists "". intros c. now rewrite sapp_nil_r.
Qed.

Lemma domainsCode_text (service : DockerComposeService) :
  exists text, forall code, domainsCode service code = code ++ text.
Proof.
  unfold domainsCode.
  destruct (ports service) as [[|first rest]|];
    [| destruct (parsePort first) |]; cbv zeta;
    try (exists ""; intros c; now rewrite sapp_nil_r).
  eexists. intros c. rewrite !sapp_assoc. reflexivity.
Qed.

Lemma commandCode_text (service : DockerComposeService) :
  exists text, forall code, commandCode service code = code ++ text.
Proof.
  unfold commandCode.
  destruct (command service) as [[[|c cmd]|args]|]; cbv zeta beta;
    try (exists ""; intros c0; now rewrite sapp_nil_r);
    eexists; intros c0; rewrite !sapp_assoc; reflexivity.
Qed.

(** The declaration opens with its head, which carries the
    runtime-name reference, and goes on with the environment block. *)
Lemma generateAppServiceCode_env (serviceName : string)
    (service : DockerComposeService) (dbPasswords : Obj string) :
  exists post,
    generateAppServiceCode serviceName service dbPasswords
    = appHeadCode serviceName ++ envBlock service dbPasswords ++ post.
Proof.
  unfold generateAppServiceCode. cbv zeta.
  destruct (sourceCode_text serviceName service) as [src Hsrc].
  destruct (volumesCode_text service) as [vol Hvol].
  destruct (domainsCode_text service) as [dom Hdom].
  destruct (commandCode_text service) as [cmd Hcmd].
  rewrite Hcmd, Hdom, Hvol, Hsrc, environmentCode_text.
  eexists. rewrite !sapp_assoc. reflexivity.
Qed.





(** *** Replacing the name [db] *)

Lemma prefix_cons (a b : ascii) (s1 s2 : string) :
  String.prefix (String a s1) (String b s2)
  = if Ascii.eqb a b then String.prefix s1 s2 else false.
Proof.
  cbn [String.prefix].
  destruct (ascii_dec a b); destruct (Ascii.eqb_spec a b);
    congruence.
Qed.

Lemma prefix_empty (s : string) : String.prefix "" s = true.
Proof. now destruct s. Qed.

Lemma prefix_db (c : ascii) (s : string) :
  String.prefix "db" (String c s) = true <->
  c = "d"%char /\ exists s', s = String "b" s'.
Proof.
  rewrite prefix_cons.
  destruct (Ascii.eqb_spec "d" c) as [<-|Hc].
  - destruct s as [|c' s'].
    + split; [discriminate|]. intros [_ [s' Hs]]. discriminate.
    + rewrite prefix_cons, prefix_empty.
      destruct (Ascii.eqb_spec "b" c') as [<-|Hc'].
      * split; [|reflexivity]. intros _. split; [reflexivity|].
        now exists s'.
      * split; [discriminate|]. intros [_ [s'' Hs]].
        injection Hs as Hb _. congruence.
  - split; [discriminate|]. intros [Hd _]. congruence.
Qed.

Lemma dbFree_cons (c : ascii) (p : string) :
  includes (String c p) "db" = false ->
  String.prefix "db" (String c p) = false /\ includes p "db" = false.
Proof. intros H. simpl in H. now apply orb_false_iff in H. Qed.

(** A piece without [db] is copied, and the [db] after it replaced. *)
Lemma replaceScan_db_piece (rep p rest : string) :
  includes p "db" = false ->
  replaceScan "db" rep 0 (p ++ "db" ++ rest)
  = p ++ rep ++ replaceScan "db" rep 0 rest.
Proof.
  induction p as [|c p IH]; intros Hfree.
  - change ("" ++ "db" ++ rest) with (String "d" (String "b" rest)).
    assert (Hyes : String.prefix "db" (String "d" (String "b" rest)) = true)
      by (apply prefix_db; eauto).
    cbn [replaceScan]. rewrite Hyes. reflexivity.
  - apply dbFree_cons in Hfree as [Hpre Hfree].
    assert (Hno : String.prefix "db" (String c (p ++ "db" ++ rest)) = false).
    { destruct (String.prefix "db" (String c (p ++ "db" ++ rest))) eqn:Hp;
        [|reflexivity].
      apply prefix_db in Hp as [-> [s' Hs]].
      destruct p as [|c' p'].
      - simpl in Hs. discriminate.
      - simpl in Hs. injection Hs as -> _.
        exfalso. apply not_true_iff_false in Hpre. apply Hpre.
        apply prefix_db. eauto. }
    change (String c p ++ "db" ++ rest) with (String c (p ++ "db" ++ rest)).
    cbn [replaceScan]. rewrite Hno, (IH Hfree). reflexivity.
Qed.

Lemma replaceScan_db_last (rep p : string) :
  includes p "db" = false -> replaceScan "db" rep 0 p = p.
Proof.
  induction p as [|c p IH]; intros Hfree; [reflexivity|].
  apply dbFree_cons in Hfree as [Hpre Hfree].
  cbn [replaceScan]. rewrite Hpre, (IH Hfree). reflexivity.
Qed.

(** Every [db] between two pieces that hold none is replaced. *)
Lemma replaceAll_db (rep : string) (pieces : list string) :
  pieces <> [] ->
  Forall (fun p => includes p "db" = false) pieces ->
  replaceAll "db" rep (join "db" pieces) = join rep pieces.
Proof.
  change (replaceAll "db" rep) with (replaceScan "db" rep 0).
  induction pieces as [|p pieces IH]; intros Hne Hfree; [congruence|].
  inversion Hfree as [|? ? Hp Hrest]; subst.
  destruct pieces as [|q ps].
  - now apply replaceScan_db_last.
  - rewrite !(join_cons _ p (q :: ps)) by discriminate.
    rewrite (replaceScan_db_piece _ _ _ Hp).
    rewrite IH; [reflexivity|discriminate|assumption].
Qed.

(** Every string is a sequence of pieces without [db], separated by
    the occurrences of [db]. *)
Lemma db_pieces (v : string) :
  exists pieces,
    pieces <> []
    /\ Forall (fun p => includes p "db" = false) pieces
    /\ v = join "db" pieces.
Proof.
  assert (Hlen : forall n v, String.length v <= n ->
            exists p ps,
              Forall (fun p => includes p "db" = false) (p :: ps)
              /\ v = join "db" (p :: ps)).
  { clear v. induction n as [|n IH]; intros v Hn.
    - destruct v; [|simpl in Hn; lia].
      exists "", []. split; [repeat constructor|reflexivity].
    - destruct v as [|c v].
      + exists "", []. split; [repeat constructor|reflexivity].
      + destruct (String.prefix "db" (String c v)) eqn:Hp.
        * apply prefix_db in Hp as [-> [v' ->]].
          destruct (IH v') as (q & qs & Hfree & Heq);
            [simpl in Hn; lia|].
          exists "", (q :: qs). split.
          -- constructor; [reflexivity|assumption].
          -- rewrite (join_cons _ "" (q :: qs)) by discriminate.
             now rewrite <- Heq.
        * destruct (IH v) as (q & qs & Hfree & Heq);
            [simpl in Hn; lia|].
          exists (String c q), qs. split.
          -- pose proof (Forall_inv Hfree) as Hq.
             pose proof (Forall_inv_tail Hfree) as Hqs.
             constructor; [|assumption].
             cbn [includes]. rewrite Hq, orb_false_r.
             destruct (String.prefix "db" (String c q)) eqn:Hpq;
               [|reflexivity].
             apply prefix_db in Hpq as [-> [q' ->]].
             rewrite <- Hp. symmetry. apply prefix_db.
             split; [reflexivity|].
             rewrite Heq, join_head_char. eauto.
          -- rewrite join_head_char. now rewrite <- Heq. }
  destruct (Hlen (String.length v) v (le_n _)) as (p & ps & Hfree & Heq).
  exists (p :: ps). repeat split; [discriminate|assumption|assumption].
Qed.

Lemma escapeTemplate_join (rep : string) (pieces : list string) :
  escapeTemplate (join rep pieces)
  = join (escapeTemplate rep) (map escapeTemplate pieces).
Proof.
  induction pieces as [|p pieces IH]; [reflexivity|].
  destruct pieces as [|q ps]; [reflexivity|].
  cbn [map]. cbn [map] in IH.
  rewrite !(join_cons _ _ (_ :: _)) by discriminate.
  now rewrite !escapeTemplate_app, IH.
Qed.

(** With [db] the only database, a value is rewritten by replacing every
    [db] with the escaped reference and escaping what lies between. *)
Lemma interpolateEnvValue_db (secret : string) (pieces : list string) :
  pieces <> [] ->
  Forall (fun p => includes p "db" = false) pieces ->
  interpolateEnvValue (join "db" pieces) [("db", secret)]
  = join "\$(PROJECT_NAME)_\${input.dbServiceName}"
      (map escapeTemplate pieces).
Proof.
  intros Hne Hfree. unfold interpolateEnvValue, entries.
  cbn [fold_left]. rewrite (replaceAll_db _ _ Hne Hfree).
  now rewrite escapeTemplate_join.
Qed.

(** *** What the template literal evaluates *)

Lemma mem_app (c : ascii) (a b : string) :
  mem c (a ++ b) = mem c a || mem c b.
Proof.
  induction a as [|x a IH]; simpl; [reflexivity|].
  now rewrite IH, orb_assoc.
Qed.

Lemma mem_insertAfterEach (c : ascii) (rep s : string) :
  mem c rep = false -> mem c s = false ->
  mem c (insertAfterEach rep s) = false.
Proof.
  intros Hrep. induction s as [|x s IH]; simpl; [reflexivity|].
  intros Hs. apply orb_false_iff in Hs as [Hx Hs].
  now rewrite Hx, mem_app, Hrep, (IH Hs).
Qed.

Lemma mem_replaceScan (c : ascii) (pat rep s : string) (skip : nat) :
  mem c rep = false -> mem c s = false ->
  mem c (replaceScan pat rep skip s) = false.
Proof.
  intros Hrep. revert skip.
  induction s as [|x s IH]; intros skip Hs; [reflexivity|].
  cbn [mem] in Hs. apply orb_false_iff in Hs as [Hx Hs].
  cbn [replaceScan]. destruct skip as [|k]; [|now apply IH].
  destruct (String.prefix pat (String x s)).
  - now rewrite mem_app, Hrep, (IH _ Hs).
  - cbn [mem]. now rewrite Hx, (IH _ Hs).
Qed.

(** A global replace brings in no character that neither the text nor
    the replacement holds. *)
Lemma mem_replaceAll (c : ascii) (pat rep s : string) :
  mem c rep = false -> mem c s = false ->
  mem c (replaceAll pat rep s) = false.
Proof.
  intros Hrep Hs. unfold replaceAll. destruct pat.
  - now rewrite mem_app, Hrep, mem_insertAfterEach.
  - now apply mem_replaceScan.
Qed.

(** Escaped text without a backslash of its own evaluates nothing: the
    scan of the template literal leaves it as it entered it. *)
Lemma escapeTemplate_dead (s rest : string) :
  mem "\" s = false ->
  scanTemplate inText (escapeTemplate s ++ rest) = scanTemplate inText rest.
Proof.
  induction s as [|c s IH]; intros Hs; [reflexivity|].
  cbn [mem] in Hs. apply orb_false_iff in Hs as [Hc Hs].
  rewrite escapeTemplate_cons, sapp_assoc.
  destruct (Ascii.eqb_spec c "`") as [->|Hb]; [exact (IH Hs)|].
  destruct (Ascii.eqb_spec c "$") as [->|Hd]; [exact (IH Hs)|].
  change (String c "" ++ escapeTemplate s ++ rest)
    with (String c (escapeTemplate s ++ rest)).
  cbn [scanTemplate]. rewrite Hc.
  destruct (Ascii.eqb_spec c "$"); [congruence|]. exact (IH Hs).
Qed.

(** Whatever the databases, an environment value that holds no
    backslash is emitted as text that evaluates no substitution: the
    references that were put in are escaped with the rest. *)
Lemma interpolateEnvValue_dead (value : string) (dbPasswords : Obj string) :
  mem "\" value = false ->
  Forall (fun dbName => mem "\" dbName = false) (keys dbPasswords) ->
  liveSubstitutions (interpolateEnvValue value dbPasswords) = [].
Proof.
  intros Hvalue Hnames. unfold liveSubstitutions, interpolateEnvValue, entries.
  rewrite <- (sapp_nil_r (escapeTemplate _)).
  rewrite escapeTemplate_dead; [reflexivity|].
  revert value Hvalue.
  induction dbPasswords as [|[dbName secret] rest IH]; intros value Hvalue;
    [exact Hvalue|].
  cbn [fold_left]. unfold keys in Hnames. cbn [map fst] in Hnames.
  inversion Hnames as [|? ? Hname Hrest]; subst.
  apply (IH Hrest). apply mem_replaceAll; [|exact Hvalue].
  unfold serviceReference. rewrite !mem_app, Hname. reflexivity.
Qed.

End Emitter.

(* ================================================================== *)
(** ** Databases in the emitted source *)
(* ================================================================== *)

Section DatabaseStatements.


(** C4, as the code does it. In a document made of a service [db]
    whose image is [postgres:15] and a service [api], in either order:
    [db] is classified a database, the secret [dbPassword] is generated
    for it and it is declared as a managed postgres service with that
    secret. When [api] is not itself a database, [db] is the one
    database and every value of the environment of [api] is emitted
    with each occurrence of [db] replaced by the reference to the
    project name and to the runtime-name field of [db]. As it is built,
    the reference holds one live substitution, that of the runtime-name
    field. The value is then escaped as a whole, reference included:
    the emitted text holds the reference with a backslash before each
    dollar sign, and a value without a backslash of its own evaluates
    no substitution at all, so the generated source names the field in
    plain text and never reads it. *)
Theorem database_detection_scenario (slug : string) (compose : DockerCompose)
    (dbService apiService : DockerComposeService) :
  Permutation [("db", dbService); ("api", apiService)] (services compose) ->
  image dbService = Some "postgres:15" ->
  let a := analyzeServices (services compose) in
  let dbPasswords := passwordTable (databases a) in
  classify "db" dbService = Database
  /\ In "db" (databases a)
  /\ get dbPasswords "db" = Some "dbPassword"
  /\ (exists pre post,
        generateIndexTs slug compose a
        = Some (pre ++ ("  const dbPassword = randomPassword();" ++ nl)
                    ++ post))
  /\ databaseText compose dbPasswords "db"
     = managedDeclaration "postgres" "db" "dbPassword"
  /\ regexLiteral "db" = true
  /\ liveSubstitutions (serviceReference "db") = ["input.dbServiceName"]
  /\ escapeTemplate (serviceReference "db")
     = "\$(PROJECT_NAME)_\${input.dbServiceName}"
  /\ liveSubstitutions (escapeTemplate (serviceReference "db")) = []
  /\ (isDb "api" apiService = false ->
      databases a = ["db"]
      /\ (apps a ++ otherServices a)%list = ["api"]
      /\ dbPasswords = [("db", "dbPassword")]
      /\ generateIndexTs slug compose a
         = Some (indexPrologue
                 ++ ("  const dbPassword = randomPassword();" ++ nl)
                 ++ nl
                 ++ managedDeclaration "postgres" "db" "dbPassword"
                 ++ generateAppServiceCode "api" apiService
                      [("db", "dbPassword")]
                 ++ indexEpilogue)
      /\ (forall vars,
            environment apiService = Some (EnvRecord vars) ->
            envEntries apiService = vars)
      /\ forall key value,
           In (key, value) (envEntries apiService) ->
           exists pieces pre post,
             value = join "db" pieces
             /\ Forall (fun p => includes p "db" = false) pieces
             /\ interpolateEnvValue value [("db", "dbPassword")]
                = join "\$(PROJECT_NAME)_\${input.dbServiceName}"
                    (map escapeTemplate pieces)
             /\ generateAppServiceCode "api" apiService
                  [("db", "dbPassword")]
                = pre
                  ++ "        `" ++ key ++ "="
                  ++ interpolateEnvValue value [("db", "dbPassword")]
                  ++ "`," ++ nl
                  ++ post
             /\ (mem "\" value = false ->
                 liveSubstitutions
                   (interpolateEnvValue value [("db", "dbPassword")])
                 = [])).
Proof.
  intros Hperm Himage a dbPasswords.
  assert (Hdb : classify "db" dbService = Database).
  { unfold classify, isDb, imageLower. rewrite Himage. reflexivity. }
  assert (Hget : get (services compose) "db" = Some dbService
                 /\ get (services compose) "api" = Some apiService).
  { apply Permutation_length_2_inv in Hperm as [-> | ->]; split;
      reflexivity. }
  destruct Hget as [Hget_db Hget_api].
  destruct (analyzeServices_lists (services compose)) as (Hd & _).
  fold a in Hd.
  destruct (analysis_names_declared compose) as (Hnd & Hna & Hno).
  fold a in Hnd, Hna, Hno.
  pose proof (generateIndexTs_text slug compose a Hnd Hna Hno) as Htext.
  cbv zeta in Htext. fold dbPasswords in Htext.
  assert (Hin : In "db" (databases a)).
  { rewrite Hd. apply in_namesOfClass. exists dbService.
    split; [|exact Hdb].
    apply (Permutation_in _ Hperm). now left. }
  assert (Hpw : get dbPasswords "db" = Some "dbPassword")
    by (apply (passwordTable_get _ _ Hin)).
  assert (Hdecl : databaseText compose dbPasswords "db"
                  = managedDeclaration "postgres" "db" "dbPassword").
  { unfold databaseText, databaseDeclaration, imageOrEmpty.
    rewrite Hget_db, Himage, Hpw. reflexivity. }
  split; [exact Hdb|]. split; [exact Hin|]. split; [exact Hpw|].
  split.
  { destruct (In_concatAll secretStatement _ _ Hin)
      as (pre & post & Hcat).
    rewrite Htext, Hcat. eexists (indexPrologue ++ pre). eexists.
    change (secretStatement "db")
      with ("  const dbPassword = randomPassword();" ++ nl).
    rewrite !sapp_assoc. reflexivity. }
  split; [exact Hdecl|]. split; [reflexivity|]. split; [reflexivity|].
  split; [reflexivity|]. split; [reflexivity|].
  intros Hapi.
  assert (Hlists : databases a = ["db"]
                   /\ (apps a = ["api"] /\ otherServices a = []
                       \/ apps a = [] /\ otherServices a = ["api"])).
  { unfold a, analyzeServices, entries.
    apply Permutation_length_2_inv in Hperm as [-> | ->];
      cbn [fold_left]; rewrite !analyzeStep_place, Hdb;
      unfold classify; rewrite Hapi;
      destruct (truthyString (image apiService)
                || truthyBuild (build apiService));
      simpl; auto. }
  destruct Hlists as [Hdbs Hrest].
  assert (Htable : dbPasswords = [("db", "dbPassword")])
    by (unfold dbPasswords; rewrite Hdbs; reflexivity).
  split; [exact Hdbs|].
  split; [destruct Hrest as [[-> ->] | [-> ->]]; reflexivity|].
  split; [exact Htable|].
  split; [|split].
  - rewrite Htext, Hdbs. cbn [map concatAll fold_right].
    rewrite Hdecl. unfold appText. rewrite Htable.
    destruct Hrest as [[-> ->] | [-> ->]];
      cbn [map concatAll fold_right];
      rewrite Hget_api, !sapp_nil_r; reflexivity.
  - intros vars Henv. unfold envEntries. now rewrite Henv.
  - intros key value Hinv.
    destruct (db_pieces value) as (pieces & Hne & Hfree & Hvalue).
    destruct (generateAppServiceCode_env "api" apiService
                [("db", "dbPassword")]) as [post Hcode].
    assert (Hblock : exists pre' post',
              envBlock apiService [("db", "dbPassword")]
              = pre' ++ envLine [("db", "dbPassword")] (key, value)
                     ++ post').
    { unfold envBlock. destruct (envEntries apiService) as [|e es] eqn:He;
        [contradiction|].
      destruct (In_concatAll (envLine [("db", "dbPassword")]) _ _ Hinv)
        as (pre' & post' & Hcat).
      rewrite Hcat.
      exists ("      env: [" ++ nl ++ pre'),
             (post' ++ "      ].join(" ++ quoted "\n" ++ ")," ++ nl).
      now rewrite !sapp_assoc. }
    destruct Hblock as (pre' & post' & Hblock).
    exists pieces, (appHeadCode "api" ++ pre'), (post' ++ post).
    split; [exact Hvalue|]. split; [exact Hfree|].
    split; [rewrite Hvalue at 1; now apply interpolateEnvValue_db|].
    split.
    + rewrite Hcode, Hblock. unfold envLine. cbn [fst snd].
      now rewrite !sapp_assoc.
    + intros Hback. apply interpolateEnvValue_dead; [exact Hback|].
      repeat constructor.
Qed.

End DatabaseStatements.

(* ================================================================== *)
(** ** The theorems at the sample documents *)
(* ================================================================== *)

Section Worked.

Ltac distinct_keys :=
  repeat (constructor; [simpl; intuition discriminate|]); constructor.

(** The guide's document: four services with distinct names. *)
Lemma analyzeServices_partition_guide :
  NoDup (keys (services guide))
  /\ analyzeServices (services guide)
     = {| databases := ["db"; "redis"]; apps := ["web"; "api"];
          otherServices := [] |}
  /\ Permutation
       (databases (analyzeServices (services guide))
        ++ apps (analyzeServices (services guide))
        ++ otherServices (analyzeServices (services guide)))%list
       (keys (services guide)).
Proof.
  assert (Hnd : NoDup (keys (services guide))) by distinct_keys.
  pose proof (analyzeServices_partition (services guide) Hnd) as Hpart.
  cbv zeta in Hpart.
  split; [exact Hnd|]. split; [reflexivity|].
  exact (proj1 (proj2 Hpart)).
Defined.

(** The haystack of image and name spells [mysql] across the seam, and
    the service is an application all the same; an image reference that
    is present and empty does not make an application. *)
Lemma classify_keyword_across_seam :
  In "mysql" dbImages
  /\ includes (haystack "sql-proxy" splitKeyword) "mysql" = true
  /\ classifySpec "sql-proxy" splitKeyword = Database
  /\ classify "sql-proxy" splitKeyword = Application
  /\ analyzeServices [("sql-proxy", splitKeyword)]
     = {| databases := []; apps := ["sql-proxy"]; otherServices := [] |}
  /\ classifySpec "worker" (imageService "") = Application
  /\ classify "worker" (imageService "") = Other.
Proof. repeat split. simpl. auto. Qed.



(** A token without a colon comes out as a volume entry. *)
Lemma parseVolume_token_without_colon :
  List.length (split ":" "/data") < 2
  /\ type (parseVolume "/data") = volume
  /\ name (parseVolume "/data") = "unknown"
  /\ includes (mountCode "" "/data") "TODO" = false
  /\ includes (mountCode "" "/data") ("type: " ++ quoted "volume") = true.
Proof. repeat split. simpl. lia. Qed.

Lemma parseVolume_single_segment_data :
  List.length (split ":" "data") < 2
  /\ parseVolume "data"
     = {| type := volume; name := "unknown";
          containerPath := "data"; hostPath := None |}.
Proof.
  assert (Hlen : List.length (split ":" "data") < 2) by (simpl; lia).
  split; [exact Hlen|].
  exact (proj1 (parseVolume_single_segment "data" Hlen)).
Defined.

(** A token that is neither a pair nor a number gives a binding, and
    its container port is not an integer. *)
Lemma parsePort_not_a_number :
  split ":" "abc" = ["abc"]
  /\ beginsWithInteger "abc" = false
  /\ parsePort "abc" = Some {| hostPort := NaN; containerPort := NaN |}
  /\ parsePort "web:http"
     = Some {| hostPort := NaN; containerPort := NaN |}.
Proof. repeat split. Qed.



(** A volume token with a mode after the container path. *)
Lemma parseVolume_extra_segments_ro :
  3 <= List.length (split ":" "data:/path:ro")
  /\ exists source target rest,
       split ":" "data:/path:ro" = source :: target :: rest
       /\ rest <> []
       /\ name (parseVolume "data:/path:ro") = source
       /\ containerPath (parseVolume "data:/path:ro") = target
       /\ parseVolume "data:/path:ro"
          = parseVolume (source ++ ":" ++ target).
Proof.
  assert (Hlen : 3 <= List.length (split ":" "data:/path:ro"))
    by (simpl; lia).
  split; [exact Hlen|].
  exact (parseVolume_extra_segments "data:/path:ro" Hlen).
Defined.

(** The scenario with the [db] and [api] services of the guide: the
    database URL of [api] is emitted with the reference escaped, and
    the emitted value evaluates nothing. *)
Lemma database_detection_guide :
  Permutation [("db", db); ("api", api)] (services dbAndApi)
  /\ image db = Some "postgres:15"
  /\ isDb "api" api = false
  /\ databases (analyzeServices (services dbAndApi)) = ["db"]
  /\ passwordTable (databases (analyzeServices (services dbAndApi)))
     = [("db", "dbPassword")]
  /\ envEntries api
     = [("DATABASE_URL", "postgres://user:pass@db:5432/mydb");
        ("REDIS_URL", "redis://redis:6379")]
  /\ interpolateEnvValue "postgres://user:pass@db:5432/mydb"
       [("db", "dbPassword")]
     = "postgres://user:pass@\$(PROJECT_NAME)_\${input.dbServiceName}:5432/my\$(PROJECT_NAME)_\${input.dbServiceName}"
  /\ liveSubstitutions
       (interpolateEnvValue "postgres://user:pass@db:5432/mydb"
          [("db", "dbPassword")])
     = []
  /\ liveSubstitutions
       "postgres://user:pass@$(PROJECT_NAME)_${input.dbServiceName}:5432/mydb"
     = ["input.dbServiceName"]
  /\ replaceAll "db" (serviceReference "db")
       "postgres://user:pass@db:5432/mydb"
     = "postgres://user:pass@$(PROJECT_NAME)_${input.dbServiceName}:5432/my$(PROJECT_NAME)_${input.dbServiceName}"
  /\ includes
       (generateAppServiceCode "api" api [("db", "dbPassword")])
       ("`DATABASE_URL=postgres://user:pass@\$(PROJECT_NAME)_\${input.dbServiceName}:5432/my\$(PROJECT_NAME)_\${input.dbServiceName}`,"
        ++ nl)
     = true
  /\ interpolateEnvValue "redis://redis:6379" [("db", "dbPassword")]
     = "redis://redis:6379".
Proof.
  assert (Hperm : Permutation [("db", db); ("api", api)] (services dbAndApi))
    by apply perm_swap.
  assert (Himage : image db = Some "postgres:15") by reflexivity.
  assert (Hapi : isDb "api" api = false) by reflexivity.
  pose proof (database_detection_scenario "app" dbAndApi db api
                Hperm Himage) as Hscenario.
  cbv zeta in Hscenario.
  destruct Hscenario as (_ & _ & _ & _ & _ & _ & _ & _ & _ & Hrewrite).
  destruct (Hrewrite Hapi) as (Hdbs & _ & Htable & _ & Hrecord & Hlines).
  assert (Hentry : In ("DATABASE_URL", "postgres://user:pass@db:5432/mydb")
                     (envEntries api))
    by (rewrite (Hrecord _ eq_refl); now left).
  destruct (Hlines _ _ Hentry) as (_ & _ & _ & _ & _ & _ & _ & Hdead).
  split; [exact Hperm|]. split; [exact Himage|]. split; [exact Hapi|].
  split; [exact Hdbs|]. split; [exact Htable|].
  split; [exact (Hrecord _ eq_refl)|].
  split; [reflexivity|].
  split; [exact (Hdead eq_refl)|].
  repeat split.
Defined.

End Worked.

(* ================================================================== *)
(** * Further properties of the converter *)
(* ================================================================== *)

Import Scaffold Terms.

(* ================================================================== *)
(** ** Names and slugs *)
(* ================================================================== *)

Section Names.

Lemma sanitizeVarName_cons (c : ascii) (s : string) :
  sanitizeVarName (String c s)
  = String (if Ascii.eqb c "-" then "_"%char else c) (sanitizeVarName s).
Proof.
  unfold sanitizeVarName. cbn [replaceChar].
  destruct (Ascii.eqb c "-"); reflexivity.
Qed.

(** Character by character: a hyphen becomes an underscore, any other
    character stays. *)
Lemma sanitizeVarName_get (name : string) (i : nat) :
  String.get i (sanitizeVarName name)
  = option_map (fun c => if Ascii.eqb c "-" then "_"%char else c)
      (String.get i name).
Proof.
  revert i. induction name as [|c s IH]; intros i; [reflexivity|].
  rewrite sanitizeVarName_cons. destruct i as [|i]; [reflexivity|].
  cbn [String.get]. apply IH.
Qed.

(** X1. [sanitizeVarName] puts an underscore in the place of every
    hyphen and keeps every other character where it is. So the result
    holds no hyphen and has the length of the name, nothing changes
    when the function is applied again, and the names that come back
    unchanged are exactly those without a hyphen. *)
Theorem sanitizeVarName_properties (name : string) :
  (forall i,
     String.get i (sanitizeVarName name)
     = option_map (fun c => if Ascii.eqb c "-" then "_"%char else c)
         (String.get i name))
  /\ mem "-" (sanitizeVarName name) = false
  /\ String.length (sanitizeVarName name) = String.length name
  /\ sanitizeVarName (sanitizeVarName name) = sanitizeVarName name
  /\ (sanitizeVarName name = name <-> mem "-" name = false).
Proof.
  split; [intros i; apply sanitizeVarName_get|].
  induction name as [|c s (Hmem & Hlen & Hidem & Hid)].
  - repeat split.
  - rewrite sanitizeVarName_cons.
    destruct (Ascii.eqb_spec c "-") as [->|Hc].
    + rewrite sanitizeVarName_cons. cbn [mem String.length].
      rewrite Hmem, Hlen, Hidem. repeat split; discriminate.
    + rewrite sanitizeVarName_cons.
      destruct (Ascii.eqb_spec c "-") as [|_]; [contradiction|].
      cbn [mem String.length]. rewrite Hmem, Hlen, Hidem.
      destruct (Ascii.eqb_spec c "-") as [|_]; [contradiction|].
      cbn [orb]. repeat split.
      * intros Heq. injection Heq as Heq. now apply Hid.
      * intros Hno. f_equal. now apply Hid.
Qed.

Lemma allSlugChars_mem (s : string) (c : ascii) :
  allSlugChars s = true -> isSlugChar c = false -> mem c s = false.
Proof.
  induction s as [|x s IH]; simpl; intros Hall Hc; [reflexivity|].
  apply andb_true_iff in Hall as [Hx Hs].
  rewrite (IH Hs Hc), orb_false_r.
  destruct (Ascii.eqb_spec x c) as [->|]; [congruence|reflexivity].
Qed.

Lemma lowerChar_slug (c : ascii) : isSlugChar c = true -> lowerChar c = c.
Proof.
  unfold isSlugChar, lowerChar. cbv zeta.
  destruct (Nat.leb_spec 65 (nat_of_ascii c));
    destruct (Nat.leb_spec (nat_of_ascii c) 90);
    destruct (Nat.leb_spec 97 (nat_of_ascii c));
    destruct (Nat.leb_spec (nat_of_ascii c) 122);
    destruct (Nat.leb_spec 48 (nat_of_ascii c));
    destruct (Nat.leb_spec (nat_of_ascii c) 57);
    destruct (Nat.eqb_spec (nat_of_ascii c) 45);
    simpl; intros; try reflexivity; try discriminate; lia.
Qed.

(** A character of a prefix is a character of the string. *)
Lemma mem_prefix (c : ascii) (p s : string) :
  String.prefix p s = true -> mem c p = true -> mem c s = true.
Proof.
  revert s. induction p as [|x p IH]; intros s Hp Hc; [discriminate|].
  destruct s as [|y s]; [discriminate|].
  rewrite prefix_cons in Hp.
  destruct (Ascii.eqb_spec x y) as [->|]; [|discriminate].
  simpl in Hc |- *. destruct (Ascii.eqb y c); [reflexivity|].
  exact (IH s Hp Hc).
Qed.

(** X2. A slug that [convert] accepts is not empty; it holds no path
    separator, dot, space or uppercase letter, so it names one directory
    under the templates directory; and it is not taken for a URL. *)
Theorem validSlug_is_one_directory_name (templateSlug : string) :
  validSlug templateSlug = true ->
  templateSlug <> ""
  /\ mem "/" templateSlug = false
  /\ mem "\" templateSlug = false
  /\ mem "." templateSlug = false
  /\ mem " " templateSlug = false
  /\ mem ":" templateSlug = false
  /\ toLowerCase templateSlug = templateSlug
  /\ isUrl templateSlug = false.
Proof.
  intros Hvalid.
  assert (Hall : allSlugChars templateSlug = true)
    by (destruct templateSlug; [discriminate|exact Hvalid]).
  assert (Hcolon : mem ":" templateSlug = false)
    by (now apply allSlugChars_mem).
  split; [destruct templateSlug; [discriminate|congruence]|].
  repeat split; try (now apply allSlugChars_mem).
  - clear Hvalid Hcolon.
    induction templateSlug as [|c s IH]; [reflexivity|].
    simpl in Hall. apply andb_true_iff in Hall as [Hc Hs].
    simpl. now rewrite (lowerChar_slug _ Hc), (IH Hs).
  - unfold isUrl, startsWith.
    destruct (String.prefix "http://" templateSlug) eqn:Hp;
      [|destruct (String.prefix "https://" templateSlug) eqn:Hq;
        [|reflexivity]].
    + rewrite (mem_prefix ":" _ _ Hp eq_refl) in Hcolon. discriminate.
    + rewrite (mem_prefix ":" _ _ Hq eq_refl) in Hcolon. discriminate.
Qed.

End Names.

(* ================================================================== *)
(** ** More on the value parsers *)
(* ================================================================== *)

Section Parsers.

Lemma parseEnvironmentItem_assign (result : Obj string) (item : string) :
  parseEnvironmentItem result item
  = assign result (tokenKey item) (tokenValue item).
Proof.
  unfold parseEnvironmentItem, tokenKey, tokenValue.
  pose proof (split_not_nil "=" item) as Hne.
  destruct (split "=" item) as [|key valueParts]; [congruence|].
  now rewrite orElse_empty.
Qed.

(** *** Writing a key at its place in the enumeration *)

Lemma get_insertKey_same {V} (o : Obj V) (k : string) (v : V) :
  get (insertKey o k v) k = Some v.
Proof.
  induction o as [|[k' v'] o IH]; cbn [insertKey get].
  - now rewrite String.eqb_refl.
  - destruct (String.eqb_spec k' k) as [->|Hne].
    + cbn [get]. now rewrite String.eqb_refl.
    + destruct (precedes k k'); cbn [get].
      * now rewrite String.eqb_refl.
      * destruct (String.eqb_spec k' k); [contradiction|exact IH].
Qed.

Lemma get_insertKey_other {V} (o : Obj V) (k k' : string) (v : V) :
  k <> k' -> get (insertKey o k v) k' = get o k'.
Proof.
  intros Hne. induction o as [|[k0 v0] o IH]; cbn [insertKey get].
  - destruct (String.eqb_spec k k'); [contradiction|reflexivity].
  - destruct (String.eqb_spec k0 k) as [->|Hk0].
    + cbn [get].
      destruct (String.eqb_spec k k'); [contradiction|reflexivity].
    + destruct (precedes k k0); cbn [get].
      * destruct (String.eqb_spec k k'); [contradiction|reflexivity].
      * destruct (String.eqb k0 k'); [reflexivity|exact IH].
Qed.

Lemma In_keys_insertKey {V} (o : Obj V) (k k' : string) (v : V) :
  In k' (keys (insertKey o k v)) <-> k' = k \/ In k' (keys o).
Proof.
  unfold keys. induction o as [|[k0 v0] o IH]; cbn [insertKey map fst In].
  - intuition auto.
  - destruct (String.eqb_spec k0 k) as [->|Hk0]; cbn [map fst In].
    + intuition auto.
    + destruct (precedes k k0); cbn [map fst In]; [intuition auto|].
      rewrite IH. intuition auto.
Qed.

Lemma precedes_asym (a b : string) :
  precedes a b = true -> precedes b a = false.
Proof.
  unfold precedes.
  destruct (arrayIndex a) as [i|], (arrayIndex b) as [j|];
    try discriminate; try reflexivity.
  intros H. apply Z.ltb_lt in H. apply Z.ltb_ge. lia.
Qed.

(** A key that does not precede [k'] does not precede what precedes
    [k']. *)
Lemma precedes_before (k k' x : string) :
  precedes k k' = true -> precedes x k' = false -> precedes x k = false.
Proof.
  unfold precedes.
  destruct (arrayIndex k) as [i|], (arrayIndex k') as [j|],
    (arrayIndex x) as [m|]; try discriminate; try reflexivity.
  intros Hij Hmj. apply Z.ltb_lt in Hij. apply Z.ltb_ge in Hmj.
  apply Z.ltb_ge. lia.
Qed.

(** Writing a key keeps the entries in enumeration order. *)
Lemma enumerated_insertKey {V} (o : Obj V) (k : string) (v : V) :
  enumerated o -> enumerated (insertKey o k v).
Proof.
  unfold enumerated.
  induction o as [|[k' v'] o IH]; intros [Hnd Hsorted].
  - split; repeat constructor. intros [].
  - unfold keys in *. cbn [map fst] in Hnd, Hsorted.
    inversion Hnd as [|? ? Hfresh Hnd']; subst.
    apply StronglySorted_inv in Hsorted as [Hsorted' Hhead].
    cbn [insertKey].
    destruct (String.eqb_spec k' k) as [->|Hne].
    + cbn [map fst]. split; constructor; assumption.
    + destruct (precedes k k') eqn:Hbefore; cbn [map fst].
      * assert (Hall : Forall (fun x => precedes x k = false)
                         (k' :: map fst o)).
        { constructor; [now apply precedes_asym|].
          apply Forall_forall. intros x Hx.
          apply (precedes_before k k' x Hbefore).
          exact (proj1 (Forall_forall _ _) Hhead x Hx). }
        split.
        -- constructor; [|now constructor].
           intros [Heq|Hin]; [congruence|].
           pose proof (proj1 (Forall_forall _ _) Hhead k Hin) as Hk.
           cbv beta in Hk. congruence.
        -- constructor; [now constructor|exact Hall].
      * destruct (IH (conj Hnd' Hsorted')) as [Hnd'' Hsorted''].
        split.
        -- constructor; [|exact Hnd''].
           intros Hin. apply (In_keys_insertKey o k k' v) in Hin.
           destruct Hin as [Heq|Hin]; [congruence|contradiction].
        -- constructor; [exact Hsorted''|].
           apply Forall_forall. intros x Hx.
           apply (In_keys_insertKey o k x v) in Hx.
           destruct Hx as [->|Hx]; [exact Hbefore|].
           exact (proj1 (Forall_forall _ _) Hhead x Hx).
Qed.

Lemma get_In {V} (o : Obj V) (k : string) (v : V) :
  get o k = Some v -> In (k, v) o.
Proof.
  induction o as [|[k' v'] o IH]; cbn [get]; [discriminate|].
  destruct (String.eqb_spec k' k) as [->|Hne].
  - intros [= ->]. now left.
  - intros H. right. now apply IH.
Qed.

(** With distinct keys, the entries are what the keys hold. *)
Lemma In_get {V} (o : Obj V) (k : string) (v : V) :
  NoDup (keys o) -> (In (k, v) o <-> get o k = Some v).
Proof.
  intros Hnd. split; [|apply get_In].
  intros Hin.
  destruct (In_keys_get o k) as [w Hw].
  { unfold keys. apply in_map_iff. exists (k, v). now split. }
  rewrite Hw. f_equal.
  exact (NoDup_keys_functional o k w v Hnd (get_In _ _ _ Hw) Hin).
Qed.

Lemma In_keys_get_iff {V} (o : Obj V) (k : string) :
  In k (keys o) <-> exists v, get o k = Some v.
Proof.
  split; [apply In_keys_get|].
  intros [v Hv]. apply get_In in Hv.
  unfold keys. apply in_map_iff. exists (k, v). now split.
Qed.

(** The loop of [parseEnvironment]: the object stays in enumeration
    order, and a key holds the value of the last token that wrote it,
    or what it held before; nothing is written to [__proto__]. *)
Lemma parseEnvironment_loop (items : list string) (result : Obj string) :
  enumerated result ->
  enumerated (fold_left parseEnvironmentItem items result)
  /\ forall k,
       get (fold_left parseEnvironmentItem items result) k
       = match
           (if String.eqb k "__proto__" then None
            else lastWrite
                   (map (fun item => (tokenKey item, tokenValue item)) items)
                   k)
         with
         | Some v => Some v
         | None => get result k
         end.
Proof.
  revert result.
  induction items as [|item items IH]; intros result Henum.
  - split; [exact Henum|]. intros k. cbn.
    now destruct (String.eqb k "__proto__").
  - cbn [fold_left]. rewrite parseEnvironmentItem_assign.
    assert (Hnext : enumerated
                      (assign result (tokenKey item) (tokenValue item))).
    { unfold assign. destruct (String.eqb (tokenKey item) "__proto__");
        [exact Henum|now apply enumerated_insertKey]. }
    destruct (IH _ Hnext) as [Hfinal Hget].
    split; [exact Hfinal|]. intros k. rewrite Hget.
    unfold lastWrite. cbn [map rev]. rewrite get_app. cbn [get].
    unfold assign.
    destruct (String.eqb_spec k "__proto__") as [->|Hk].
    + destruct (String.eqb_spec (tokenKey item) "__proto__") as [|Hne];
        [reflexivity|].
      now apply get_insertKey_other.
    + destruct (get (rev (map (fun item0 => (tokenKey item0, tokenValue item0))
                            items)) k); [reflexivity|].
      destruct (String.eqb_spec (tokenKey item) k) as [<-|Hne].
      * destruct (String.eqb_spec (tokenKey item) "__proto__");
          [contradiction|].
        apply get_insertKey_same.
      * destruct (String.eqb (tokenKey item) "__proto__"); [reflexivity|].
        now apply get_insertKey_other.
Qed.

(** X3. The sequence form of an environment is normalised to a mapping
    in enumeration order, with distinct keys, whatever the tokens. Its
    keys are the keys of the tokens other than [__proto__], and none
    holds [=]. Its entries bind each of these keys to the value of the
    last token that gives the key: a token whose key is [__proto__]
    writes nothing. *)
Theorem parseEnvironment_array_last_token_wins (items : list string) :
  let result := parseEnvironment (EnvArray items) in
  let writes := map (fun item => (tokenKey item, tokenValue item)) items in
  enumerated result
  /\ (forall k,
        In k (keys result) <->
        k <> "__proto__" /\ In k (map tokenKey items))
  /\ (forall k, In k (keys result) -> mem "=" k = false)
  /\ (forall k v,
        In (k, v) (entries result) <->
        k <> "__proto__" /\ lastWrite writes k = Some v).
Proof.
  cbv zeta. cbn [parseEnvironment]. unfold entries.
  destruct (parseEnvironment_loop items [])
    as [Henum Hget]; [split; constructor|].
  set (result := fold_left parseEnvironmentItem items []) in *.
  set (writes := map (fun item => (tokenKey item, tokenValue item)) items)
    in *.
  assert (Hlast : forall k v,
            get result k = Some v <->
            k <> "__proto__" /\ lastWrite writes k = Some v).
  { intros k v. rewrite Hget. cbn [get].
    destruct (String.eqb_spec k "__proto__") as [->|Hk].
    - split; [discriminate|]. intros [Hne _]. congruence.
    - destruct (lastWrite writes k) as [w|].
      + split; [now split|now intros [_ H]].
      + split; [discriminate|now intros [_ H]]. }
  assert (Hkeys : forall k,
            In k (keys result) <->
            k <> "__proto__" /\ In k (map tokenKey items)).
  { intros k. rewrite In_keys_get_iff.
    assert (Hw : In k (map tokenKey items)
                 <-> exists v, lastWrite writes k = Some v).
    { unfold lastWrite. rewrite <- In_keys_get_iff.
      unfold keys, writes. rewrite map_rev, <- in_rev, map_map.
      reflexivity. }
    rewrite Hw. split.
    - intros [v Hv]. apply Hlast in Hv as [Hk Hv]. eauto.
    - intros [Hk [v Hv]]. exists v. now apply Hlast. }
  split; [exact Henum|]. split; [exact Hkeys|]. split.
  - intros k Hin. apply Hkeys in Hin as [_ Hin].
    apply in_map_iff in Hin as [item [<- _]].
    unfold tokenKey. pose proof (split_segments "=" item) as Hseg.
    destruct (split "=" item) as [|key rest]; [reflexivity|].
    now inversion Hseg.
  - intros k v. rewrite (In_get result k v (proj1 Henum)). apply Hlast.
Qed.

(** X4. Whatever the token, the result of [parseVolume] has a host path
    exactly when it is a bind mount, and then the host path is the
    name; a bind mount has a name that begins with [/] or [./]; and
    neither the name nor the container path holds a colon. *)
Theorem parseVolume_invariants (vol : string) :
  let parsed := parseVolume vol in
  (type parsed = bind <-> hostPath parsed = Some (name parsed))
  /\ (type parsed = volume <-> hostPath parsed = None)
  /\ (type parsed = bind ->
      startsWith (name parsed) "/" = true
      \/ startsWith (name parsed) "./" = true)
  /\ mem ":" (name parsed) = false
  /\ mem ":" (containerPath parsed) = false.
Proof.
  cbv zeta.
  pose proof (split_segments ":" vol) as Hseg.
  destruct (split ":" vol) as [|source [|target rest]] eqn:Hs.
  - exfalso. now apply (split_not_nil ":" vol).
  - assert (Hlen : List.length (split ":" vol) < 2)
      by (rewrite Hs; simpl; lia).
    apply split_length_one in Hlen.
    unfold parseVolume. rewrite Hs.
    cbn [List.length Nat.leb type name containerPath hostPath].
    repeat split; try discriminate; auto.
  - rewrite (parseVolume_segments _ _ _ _ Hs).
    inversion Hseg as [|? ? Hsrc Hseg']; subst.
    inversion Hseg' as [|? ? Htgt _]; subst.
    destruct (startsWith source "/" || startsWith source "./") eqn:Hb;
      cbn [type name containerPath hostPath];
      repeat split; try discriminate; auto.
    intros _. now apply orb_true_iff.
Qed.

(** X5. A token with two segments or more is its name, its container
    path and the segments left aside, joined by colons: with exactly
    two segments the result holds the whole token. *)
Theorem parseVolume_rebuilds_token (vol : string) :
  2 <= List.length (split ":" vol) ->
  vol = join ":" (name (parseVolume vol)
                  :: containerPath (parseVolume vol)
                  :: skipn 2 (split ":" vol))
  /\ (List.length (split ":" vol) = 2 ->
      vol = name (parseVolume vol) ++ ":" ++ containerPath (parseVolume vol)).
Proof.
  intros Hlen.
  pose proof (join_split ":" vol) as Hjoin.
  destruct (split ":" vol) as [|source [|target rest]] eqn:Hs;
    simpl in Hlen; try lia.
  rewrite (parseVolume_segments _ _ _ _ Hs).
  assert (Hfields :
            forall b : bool,
              name (if b
                    then {| type := bind; name := source;
                            containerPath := target;
                            hostPath := Some source |}
                    else {| type := volume; name := source;
                            containerPath := target; hostPath := None |})
              = source
              /\ containerPath
                   (if b
                    then {| type := bind; name := source;
                            containerPath := target;
                            hostPath := Some source |}
                    else {| type := volume; name := source;
                            containerPath := target; hostPath := None |})
                 = target)
    by (intros []; split; reflexivity).
  destruct (Hfields (startsWith source "/" || startsWith source "./"))
    as [-> ->].
  cbn [skipn]. split; [now rewrite Hjoin|].
  intros Htwo. destruct rest; [|simpl in Htwo; lia].
  now rewrite <- Hjoin.
Qed.

(** X6. A token [source:target] whose parts hold no colon is emitted as
    the bind-mount note, carrying the token as it is, when the source
    begins with [/] or [./], and otherwise as a volume entry whose name
    is the source and whose mount path is the target. *)
Theorem mountCode_of_two_segments (code source target : string) :
  mem ":" source = false ->
  mem ":" target = false ->
  mountCode code (source ++ ":" ++ target)
  = if startsWith source "/" || startsWith source "./"
    then code ++ "        // TODO: Handle bind mount: "
              ++ source ++ ":" ++ target ++ nl
    else code ++ "        {" ++ nl
              ++ "          type: " ++ quoted "volume" ++ "," ++ nl
              ++ "          name: " ++ quoted source ++ "," ++ nl
              ++ "          mountPath: " ++ quoted target ++ "," ++ nl
              ++ "        }," ++ nl.
Proof.
  intros Hsrc Htgt.
  assert (Hs : split ":" (source ++ ":" ++ target) = [source; target]).
  { change (source ++ ":" ++ target) with (source ++ String ":" target).
    now rewrite (split_first _ _ _ Hsrc), (split_no_sep _ _ Htgt). }
  unfold mountCode. rewrite (parseVolume_segments _ _ _ _ Hs).
  destruct (startsWith source "/" || startsWith source "./");
    cbn [type name containerPath]; cbv zeta.
  - now rewrite !sapp_assoc.
  - now rewrite !sapp_assoc.
Qed.

End Parsers.

Section PortNumerals.

Lemma decimal_uint (n : N) :
  decimal (Z.of_N n) = NilEmpty.string_of_uint (N.to_uint n).
Proof.
  unfold decimal. destruct n as [|p]; [reflexivity|].
  cbn [Z.of_N Z.to_int NilZero.string_of_int N.to_uint].
  unfold NilZero.string_of_uint.
  pose proof (to_uint_not_nil p).
  destruct (Pos.to_uint p); [congruence|reflexivity..].
Qed.

Lemma readDigits_stop (acc : Z) (suffix : string) :
  startsWithDigit suffix = false -> readDigits true acc suffix = Some acc.
Proof.
  destruct suffix as [|c s]; [reflexivity|]. simpl.
  destruct (digitValue c); [discriminate|reflexivity].
Qed.

Lemma readDigits_acc_suffix (d : Decimal.uint) (acc : positive)
    (suffix : string) :
  readDigits true (Zpos acc) (NilEmpty.string_of_uint d ++ suffix)
  = readDigits true (Zpos (Pos.of_uint_acc d acc)) suffix.
Proof.
  revert acc.
  induction d; intros acc;
    cbn [NilEmpty.string_of_uint Pos.of_uint_acc append];
    [reflexivity|..];
    (erewrite readDigits_step by (cbv; reflexivity);
     rewrite <- IHd; f_equal; lia).
Qed.

Lemma readDigits_uint_suffix (seen : bool) (d : Decimal.uint)
    (suffix : string) :
  seen = true \/ d <> Decimal.Nil ->
  startsWithDigit suffix = false ->
  readDigits seen 0 (NilEmpty.string_of_uint d ++ suffix)
  = Some (Z.of_N (Pos.of_uint d)).
Proof.
  intros Hok Hstop. revert seen Hok.
  induction d; intros seen Hok;
    cbn [NilEmpty.string_of_uint Pos.of_uint append];
    try (erewrite readDigits_step by (cbv; reflexivity);
         match goal with
         | |- readDigits true ?z _ = _ =>
             let z' := eval cbv in z in change z with z'
         end).
  - destruct Hok as [->|Hne]; [now apply readDigits_stop|congruence].
  - apply IHd. now left.
  - rewrite (readDigits_acc_suffix d), readDigits_stop; auto.
  - rewrite (readDigits_acc_suffix d), readDigits_stop; auto.
  - rewrite (readDigits_acc_suffix d), readDigits_stop; auto.
  - rewrite (readDigits_acc_suffix d), readDigits_stop; auto.
  - rewrite (readDigits_acc_suffix d), readDigits_stop; auto.
  - rewrite (readDigits_acc_suffix d), readDigits_stop; auto.
  - rewrite (readDigits_acc_suffix d), readDigits_stop; auto.
  - rewrite (readDigits_acc_suffix d), readDigits_stop; auto.
  - rewrite (readDigits_acc_suffix d), readDigits_stop; auto.
Qed.

(* Reading a numeral that begins with a known character. *)
Ltac read_numeral Hr :=
  unfold parseInt;
  rewrite trimStart_plain by (first [reflexivity | cbn; lia]);
  cbv beta iota zeta; rewrite Hr; f_equal; lia.

(** [parseInt] reads a numeral and stops at what follows it. *)
Lemma parseInt_decimal_suffix (n : N) (suffix : string) :
  startsWithDigit suffix = false ->
  parseInt (decimal (Z.of_N n) ++ suffix) = toDouble (Z.of_N n).
Proof.
  intros Hstop. rewrite decimal_uint.
  rewrite <- (DecimalN.Unsigned.of_to n) at 2. unfold N.of_uint.
  assert (Hne : N.to_uint n <> Decimal.Nil).
  { destruct n; [discriminate|apply to_uint_not_nil]. }
  pose proof (readDigits_uint_suffix false _ suffix (or_intror Hne) Hstop)
    as Hr.
  destruct (N.to_uint n) eqn:Hd; try congruence;
    cbn [NilEmpty.string_of_uint append] in *; read_numeral Hr.
Qed.

Lemma mem_decimal_suffix (n : N) (suffix : string) :
  mem ":" suffix = false -> mem ":" (decimal (Z.of_N n) ++ suffix) = false.
Proof.
  intros Hs. rewrite decimal_uint.
  induction (N.to_uint n); simpl; auto.
Qed.

Lemma parsePort_decimal_suffix (h c : N) (suffix : string) :
  mem ":" suffix = false ->
  startsWithDigit suffix = false ->
  parsePort (decimal (Z.of_N h) ++ ":" ++ decimal (Z.of_N c) ++ suffix)
  = Some {| hostPort := toDouble (Z.of_N h);
            containerPort := toDouble (Z.of_N c) |}
  /\ parsePort (decimal (Z.of_N c) ++ suffix)
     = Some {| hostPort := toDouble (Z.of_N c);
               containerPort := toDouble (Z.of_N c) |}.
Proof.
  intros Hcolon Hstop. split.
  - rewrite (parsePort_two _ (decimal (Z.of_N h))
               (decimal (Z.of_N c) ++ suffix)).
    + now rewrite (parseInt_decimal_suffix c suffix Hstop), parseInt_decimal.
    + apply split_pair; [apply decimal_no_colon|].
      now apply mem_decimal_suffix.
  - rewrite (parsePort_one _ (decimal (Z.of_N c) ++ suffix)).
    + now rewrite (parseInt_decimal_suffix c suffix Hstop).
    + apply split_no_sep. now apply mem_decimal_suffix.
Qed.

(** X7. What follows the container port is ignored: when the suffix
    holds no colon and does not begin with a digit, as [/tcp] does, the
    token binds the same ports as without it, whatever the size of the
    numerals; for integers below 2^53 these ports are the integers. *)
Theorem parsePort_ignores_suffix (h c : N) (suffix : string) :
  mem ":" suffix = false ->
  startsWithDigit suffix = false ->
  parsePort (decimal (Z.of_N h) ++ ":" ++ decimal (Z.of_N c) ++ suffix)
  = parsePort (decimal (Z.of_N h) ++ ":" ++ decimal (Z.of_N c))
  /\ parsePort (decimal (Z.of_N c) ++ suffix)
     = parsePort (decimal (Z.of_N c))
  /\ (safeInteger h -> safeInteger c ->
      parsePort (numeral h ++ ":" ++ numeral c ++ suffix)
      = Some {| hostPort := Int (Z.of_N h);
                containerPort := Int (Z.of_N c) |}
      /\ parsePort (numeral c ++ suffix)
         = Some {| hostPort := Int (Z.of_N c);
                   containerPort := Int (Z.of_N c) |}).
Proof.
  intros Hcolon Hstop.
  destruct (parsePort_decimal_suffix h c suffix Hcolon Hstop)
    as [Hpair Hone].
  destruct (parsePort_decimal_suffix h c "" eq_refl eq_refl)
    as [Hpair0 Hone0].
  rewrite !sapp_nil_r in Hpair0, Hone0.
  split; [now rewrite Hpair, Hpair0|].
  split; [now rewrite Hone, Hone0|].
  intros Hh Hc.
  rewrite (numeral_decimal h Hh), (numeral_decimal c Hc), Hpair, Hone.
  rewrite !toDouble_safe by (now apply safeInteger_abs).
  split; reflexivity.
Qed.

(** X8. [parsePort] checks no range: the numeral of any integer,
    negative or beyond 65535, is bound as host and container port. The
    port is the double nearest to the integer, which below 2^53 is the
    integer itself. *)
Theorem parsePort_any_integer (z : Z) :
  parsePort (decimal z)
  = Some {| hostPort := toDouble z; containerPort := toDouble z |}
  /\ ((Z.abs z < 2 ^ 53)%Z ->
      parsePort (numberToString (Int z))
      = Some {| hostPort := Int z; containerPort := Int z |}).
Proof.
  assert (Hany : parsePort (decimal z)
                 = Some {| hostPort := toDouble z;
                           containerPort := toDouble z |}).
  { rewrite (parsePort_one _ (decimal z))
      by (apply split_no_sep, decimal_no_colon).
    now rewrite parseInt_decimal. }
  split; [exact Hany|]. intros Hz.
  unfold numberToString.
  destruct (Z.ltb_spec (Z.abs z) (2 ^ 53)); [|lia].
  now rewrite Hany, toDouble_safe.
Qed.

End PortNumerals.

(* ================================================================== *)
(** ** More on the classifier and the engines *)
(* ================================================================== *)

Section Engines.

Lemma imageLower_imageOrEmpty (service : DockerComposeService) :
  imageLower service = toLowerCase (imageOrEmpty service).
Proof.
  unfold imageLower, imageOrEmpty.
  destruct (image service) as [[|c i]|]; reflexivity.
Qed.

Lemma detectDatabaseType_sound (img t : string) :
  detectDatabaseType img = Some t ->
  includes (toLowerCase img) t = true.
Proof.
  unfold detectDatabaseType.
  repeat match goal with
         | |- context [if ?b then _ else _] => destruct b eqn:?
         end;
    intros [= <-]; assumption.
Qed.

(** X9. A service whose image names an engine that [detectDatabaseType]
    knows is classified a database, whatever its name: the engine
    occurs in the lowercase image and is one of the five that get a
    managed declaration. *)
Theorem detected_engine_is_database (name : string)
    (service : DockerComposeService) (t : string) :
  detectDatabaseType (imageOrEmpty service) = Some t ->
  includes (toLowerCase (imageOrEmpty service)) t = true
  /\ In t supportedDatabases
  /\ In t dbImages
  /\ classify name service = Database.
Proof.
  intros Ht.
  pose proof (detectDatabaseType_sound _ _ Ht) as Hinc.
  destruct (detectDatabaseType_supported _ _ Ht) as (Hsup & _ & _).
  assert (Hdb : In t dbImages).
  { unfold supportedDatabases in Hsup. unfold dbImages. simpl in *.
    intuition auto. }
  repeat split; try assumption.
  unfold classify.
  assert (His : isDb name service = true).
  { apply isDb_keywordHit. exists t. split; [exact Hdb|]. left.
    now rewrite imageLower_imageOrEmpty. }
  now rewrite His.
Qed.

(** X10. The analysis of a document made of two parts is the analysis
    of the first part followed, list by list, by that of the second:
    the class of a service does not depend on the services around it. *)
Theorem analyzeServices_app (first second : Obj DockerComposeService) :
  databases (analyzeServices (first ++ second)%list)
  = (databases (analyzeServices first)
     ++ databases (analyzeServices second))%list
  /\ apps (analyzeServices (first ++ second)%list)
     = (apps (analyzeServices first) ++ apps (analyzeServices second))%list
  /\ otherServices (analyzeServices (first ++ second)%list)
     = (otherServices (analyzeServices first)
        ++ otherServices (analyzeServices second))%list.
Proof.
  destruct (analyzeServices_lists (first ++ second)%list) as (-> & -> & ->).
  destruct (analyzeServices_lists first) as (-> & -> & ->).
  destruct (analyzeServices_lists second) as (-> & -> & ->).
  unfold namesOfClass. now rewrite !filter_app, !map_app.
Qed.

End Engines.

(* ================================================================== *)
(** ** More on secrets and interpolation *)
(* ================================================================== *)

Section Interpolation.


Lemma includes_empty (s : string) : includes s "" = true.
Proof. destruct s; reflexivity. Qed.

Lemma replaceScan_absent (pat rep s : string) :
  includes s pat = false -> replaceScan pat rep 0 s = s.
Proof.
  induction s as [|c s IH]; intros Hno; [reflexivity|].
  cbn [includes] in Hno. apply orb_false_iff in Hno as [Hp Hs].
  cbn [replaceScan]. now rewrite Hp, (IH Hs).
Qed.

Lemma replaceAll_absent (pat rep s : string) :
  includes s pat = false -> replaceAll pat rep s = s.
Proof.
  intros Hno. destruct pat as [|c pat].
  - now rewrite includes_empty in Hno.
  - now apply replaceScan_absent.
Qed.

(** X12. When the database names are read literally as patterns, a
    value in which none of them occurs is emitted escaped and
    otherwise as it is. *)
Theorem interpolateEnvValue_without_names (value : string)
    (dbPasswords : Obj string) :
  Forall (fun dbName => regexLiteral dbName = true) (keys dbPasswords) ->
  Forall (fun dbName => includes value dbName = false) (keys dbPasswords) ->
  interpolateEnvValue value dbPasswords = escapeTemplate value.
Proof.
  intros _ Hnone. unfold interpolateEnvValue, entries. f_equal.
  induction dbPasswords as [|[dbName secret] rest IH]; [reflexivity|].
  inversion Hnone as [|? ? Hhere Hrest]; subst.
  cbn [fold_left]. rewrite (replaceAll_absent _ _ _ Hhere).
  now apply IH.
Qed.


Lemma escapeTemplate_guardedFrom (c : ascii) (after : bool) (s : string) :
  c = "`"%char \/ c = "$"%char ->
  guardedFrom c after (escapeTemplate s) = true.
Proof.
  intros Hc. revert after.
  induction s as [|x s IH]; intros after; [reflexivity|].
  rewrite escapeTemplate_cons.
  destruct (Ascii.eqb_spec x "`") as [->|Hb];
    [|destruct (Ascii.eqb_spec x "$") as [->|Hd]].
  - destruct Hc as [-> | ->]; cbn; apply IH.
  - destruct Hc as [-> | ->]; cbn; apply IH.
  - cbn [append guardedFrom].
    rewrite IH, andb_true_r.
    destruct Hc as [-> | ->];
      destruct (Ascii.eqb_spec x "`"); destruct (Ascii.eqb_spec x "$");
      try contradiction; reflexivity.
Qed.

(** X13. In an escaped value every backtick and every dollar sign
    stands right after a backslash; a value is left as it is exactly
    when it holds neither of them, so a backslash of the value is
    emitted as it is. *)
Theorem escapeTemplate_guards (s : string) :
  guarded "`" (escapeTemplate s) = true
  /\ guarded "$" (escapeTemplate s) = true
  /\ (escapeTemplate s = s <-> mem "`" s = false /\ mem "$" s = false).
Proof.
  split; [apply escapeTemplate_guardedFrom; now left|].
  split; [apply escapeTemplate_guardedFrom; now right|].
  induction s as [|x s IH]; [repeat split|].
  rewrite escapeTemplate_cons. cbn [mem].
  destruct (Ascii.eqb_spec x "`") as [->|Hb];
    [|destruct (Ascii.eqb_spec x "$") as [->|Hd]].
  - split; [intros H; discriminate|intros [H _]; discriminate].
  - split; [intros H; discriminate|intros [_ H]; discriminate].
  - cbn [append orb]. split.
    + intros H. injection H as H. now apply IH.
    + intros H. f_equal. now apply IH.
Qed.

End Interpolation.

(* ================================================================== *)
(** ** The required fields of the schema *)
(* ================================================================== *)

Section RequiredFields.

Lemma slength_app (a b : string) :
  String.length (a ++ b) = String.length a + String.length b.
Proof. induction a as [|c a IH]; simpl; [reflexivity|now rewrite IH]. Qed.

(** Two strings with suffixes of one length are equal part by part. *)
Lemma suffix_inj (a b s t : string) :
  String.length s = String.length t -> a ++ s = b ++ t -> a = b /\ s = t.
Proof.
  revert b. induction a as [|x a IH]; intros [|y b] Hlen Heq; simpl in Heq.
  - now split.
  - apply (f_equal String.length) in Heq. simpl in Heq.
    rewrite slength_app in Heq. lia.
  - apply (f_equal String.length) in Heq. simpl in Heq.
    rewrite slength_app in Heq. lia.
  - injection Heq as -> Heq. destruct (IH b Hlen Heq) as [-> ->].
    now split.
Qed.

Lemma nameField_inj (n m : string) :
  n ++ "ServiceName" = m ++ "ServiceName" -> n = m.
Proof. intros H. now apply (suffix_inj n m _ _ eq_refl) in H. Qed.

Lemma imageField_inj (n m : string) :
  n ++ "ServiceImage" = m ++ "ServiceImage" -> n = m.
Proof. intros H. now apply (suffix_inj n m _ _ eq_refl) in H. Qed.

Lemma nameField_not_imageField (n m : string) :
  n ++ "ServiceName" <> m ++ "ServiceImage".
Proof.
  intros H.
  change (n ++ "ServiceName") with (n ++ "ServiceNa" ++ "me") in H.
  change (m ++ "ServiceImage") with (m ++ "ServiceIma" ++ "ge") in H.
  rewrite <- !sapp_assoc in H.
  apply (suffix_inj _ _ "me" "ge" eq_refl) in H as [_ H]. discriminate.
Qed.

Lemma projectName_not_field (n : string) :
  "projectName" <> n ++ "ServiceName" /\ "projectName" <> n ++ "ServiceImage".
Proof.
  split; intros H.
  - apply (suffix_inj "" n "projectName" "ServiceName" eq_refl) in H
      as [_ H]. discriminate.
  - apply (f_equal String.length) in H. rewrite slength_app in H.
    simpl in H. lia.
Qed.

(** A required field of a service is its name field or its image
    field. *)
Lemma In_serviceRequired (f n : string) (service : DockerComposeService) :
  In f (serviceRequired n service) ->
  f = n ++ "ServiceName" \/ f = n ++ "ServiceImage".
Proof.
  unfold serviceRequired. cbv zeta.
  destruct (truthyString (image service)); simpl; intuition auto.
Qed.

Lemma NoDup_serviceRequired (n : string) (service : DockerComposeService) :
  NoDup (serviceRequired n service).
Proof.
  unfold serviceRequired. cbv zeta.
  destruct (truthyString (image service)).
  - constructor; [|repeat constructor; auto].
    intros [H|[]]. symmetry in H. now apply nameField_not_imageField in H.
  - repeat constructor. auto.
Qed.

Lemma In_requiredFields (compose : DockerCompose) (names : list string)
    (f : string) :
  In f (requiredFields compose names) ->
  exists n, In n names
            /\ (f = n ++ "ServiceName" \/ f = n ++ "ServiceImage").
Proof.
  unfold requiredFields. rewrite in_flat_map.
  intros [n [Hn Hf]]. exists n. split; [exact Hn|].
  destruct (get (services compose) n); [|contradiction].
  now apply In_serviceRequired in Hf.
Qed.

Lemma NoDup_requiredFields (compose : DockerCompose) (names : list string) :
  NoDup names -> NoDup (requiredFields compose names).
Proof.
  induction names as [|n names IH]; intros Hnd; [constructor|].
  inversion Hnd as [|? ? Hfresh Hnd']; subst.
  unfold requiredFields. cbn [flat_map].
  fold (requiredFields compose names).
  destruct (get (services compose) n) as [service|]; [|now apply IH].
  apply NoDup_app; [apply NoDup_serviceRequired|now apply IH|].
  intros f Hhere Hthere.
  apply In_serviceRequired in Hhere.
  apply In_requiredFields in Hthere as [m [Hm Hf]].
  assert (n = m); [|subst; contradiction].
  destruct Hhere as [-> | ->], Hf as [Hf|Hf].
  - now apply nameField_inj.
  - now apply nameField_not_imageField in Hf.
  - symmetry in Hf. now apply nameField_not_imageField in Hf.
  - now apply imageField_inj.
Qed.

Lemma envFieldStep_required (serviceName : string)
    (es : list (string * string)) (schema : Schema) :
  required (fold_left (envFieldStep serviceName) es schema)
  = required schema.
Proof.
  revert schema. induction es as [|[k v] es IH]; intros schema; simpl;
    [reflexivity|]. now rewrite IH.
Qed.

Lemma serviceFieldsStep_fields (compose : DockerCompose) (schema : Schema)
    (serviceName : string) (service : DockerComposeService) :
  get (services compose) serviceName = Some service ->
  exists schema',
    serviceFieldsStep compose schema serviceName = Some schema'
    /\ required schema'
       = (required schema ++ serviceRequired serviceName service)%list
    /\ properties schema'
       = applyWrites (properties schema) (serviceWrites serviceName service).
Proof.
  intros Hget. unfold serviceFieldsStep.
  rewrite (serviceNamed_declared _ _ _ Hget).
  eexists. split; [reflexivity|]. split.
  - unfold serviceRequired. cbv zeta.
    destruct (environment service) as [env|];
      [rewrite envFieldStep_required|];
      destruct (image service) as [[|c i]|];
      unfold pushRequired, setProperty, push;
      cbn [required truthyString]; rewrite <- ?app_assoc; reflexivity.
  - unfold serviceWrites. cbv zeta. rewrite !applyWrites_app.
    destruct (environment service) as [env|];
      [rewrite envFieldStep_fold|];
      destruct (image service) as [[|c i]|]; reflexivity.
Qed.

Lemma serviceFields_loop_fields (compose : DockerCompose)
    (names : list string) (schema : Schema) :
  Forall (declared compose) names ->
  exists schema',
    forEach names (serviceFieldsStep compose) schema = Some schema'
    /\ required schema'
       = (required schema ++ requiredFields compose names)%list
    /\ properties schema'
       = applyWrites (properties schema) (schemaWrites compose names).
Proof.
  revert schema.
  induction names as [|n names IH]; intros schema Hall.
  - exists schema. repeat split. simpl. now rewrite app_nil_r.
  - inversion Hall as [|? ? Hn Hall']; subst.
    destruct (In_keys_get _ _ Hn) as [service Hget].
    destruct (serviceFieldsStep_fields compose schema n service Hget)
      as (schema1 & Hstep & Hreq & Hprops).
    destruct (IH schema1 Hall') as (schema2 & Hloop & Hreq2 & Hprops2).
    exists schema2. split; [|split].
    + rewrite forEach_cons, Hstep. exact Hloop.
    + rewrite Hreq2, Hreq. unfold requiredFields. cbn [flat_map].
      rewrite Hget. now rewrite app_assoc.
    + rewrite Hprops2, Hprops. unfold schemaWrites. cbn [flat_map].
      rewrite Hget. now rewrite applyWrites_app.
Qed.

Lemma requiredFields_written (compose : DockerCompose)
    (names : list string) (f : string) :
  In f (requiredFields compose names) ->
  In f (map fst (schemaWrites compose names)).
Proof.
  unfold requiredFields, schemaWrites.
  rewrite in_flat_map. intros [n [Hn Hf]].
  apply in_map_iff.
  destruct (get (services compose) n) as [service|] eqn:Hget;
    [|contradiction].
  assert (Hw : In f (map fst (serviceWrites n service))).
  { unfold serviceRequired in Hf. unfold serviceWrites. cbv zeta in *.
    rewrite !map_app. cbn [map fst].
    destruct (image service) as [[|c i]|]; simpl in Hf |- *;
      intuition auto. }
  apply in_map_iff in Hw as [w [Hfst Hw]].
  exists w. split; [exact Hfst|].
  apply in_flat_map. exists n. split; [exact Hn|]. now rewrite Hget.
Qed.

(** X14. On the analysis of a document the list [required] of the
    schema is [projectName] followed, service by service in the order
    of [allServices], by the runtime-name field and, when the service
    has an image, the image field. Every required field is a key of
    [properties]; and when the services have distinct names no field is
    required twice. *)
Theorem metaSchema_required_fields (slug : string) (compose : DockerCompose) :
  let a := analyzeServices (services compose) in
  exists schema,
    metaSchema slug compose a = Some schema
    /\ required schema
       = "projectName" :: requiredFields compose (allServices a)
    /\ (forall f, In f (required schema) ->
                  In f (keys (properties schema)))
    /\ (NoDup (keys (services compose)) -> NoDup (required schema)).
Proof.
  intros a.
  destruct (analysis_names_declared compose) as (Hd & Ha & Ho).
  fold a in Hd, Ha, Ho.
  assert (Hall : Forall (declared compose) (allServices a)).
  { unfold allServices. rewrite !Forall_app. auto. }
  destruct (serviceFields_loop_fields compose _ initialSchema Hall)
    as (schema & Hloop & Hreq & Hprops).
  exists schema. split; [exact Hloop|]. split; [exact Hreq|]. split.
  - intros f Hf. rewrite Hprops, In_keys_applyWrites.
    rewrite Hreq in Hf. destruct Hf as [<-|Hf]; [left; simpl; auto|].
    right. now apply requiredFields_written.
  - intros Hnd. rewrite Hreq. cbn [required initialSchema app].
    assert (Hnames : NoDup (allServices a)).
    { destruct (analyzeServices_lists (services compose))
        as (Hdl & Hal & Hol).
      unfold allServices. fold a in Hdl, Hal, Hol. rewrite Hdl, Hal, Hol.
      eapply Permutation_NoDup;
        [symmetry; apply namesOfClass_permutation|exact Hnd]. }
    constructor; [|now apply NoDup_requiredFields].
    intros Hin. apply In_requiredFields in Hin as [n [_ [Hf|Hf]]].
    + now apply (proj1 (projectName_not_field n)).
    + now apply (proj2 (projectName_not_field n)).
Qed.

End RequiredFields.

(* ================================================================== *)
(** ** Names that the document does not declare *)
(* ================================================================== *)

Section Undeclared.

Variable compose : DockerCompose.

Lemma declared_dec (n : string) :
  {declared compose n} + {~ declared compose n}.
Proof. apply in_dec, string_dec. Qed.

Lemma answered_dec (n : string) :
  {answered compose n} + {~ answered compose n}.
Proof.
  unfold answered. destruct (declared_dec n) as [Hd|Hd]; [now left; left|].
  destruct (inherited n); [now left; right|].
  right. intros [H|H]; [contradiction|discriminate].
Qed.

Lemma get_undeclared (n : string) :
  ~ declared compose n -> get (services compose) n = None.
Proof.
  unfold declared, keys. induction (services compose) as [|[k v] o IH];
    simpl; intros Hn; [reflexivity|].
  destruct (String.eqb_spec k n) as [->|Hne].
  - exfalso. apply Hn. now left.
  - apply IH. intros Hin. apply Hn. now right.
Qed.

Lemma serviceNamed_answered (n : string) :
  answered compose n -> exists service, serviceNamed compose n = Some service.
Proof.
  intros [Hd|Hi]; unfold serviceNamed.
  - destruct (In_keys_get _ _ Hd) as [service ->]. now exists service.
  - destruct (get (services compose) n) as [service|]; [now exists service|].
    rewrite Hi. now exists inheritedMember.
Qed.

Lemma serviceNamed_unanswered (n : string) :
  ~ answered compose n -> serviceNamed compose n = None.
Proof.
  intros Hn. unfold serviceNamed.
  rewrite get_undeclared by (intros Hd; apply Hn; now left).
  destruct (inherited n) eqn:Hi; [|reflexivity].
  exfalso. apply Hn. now right.
Qed.

(** A loop whose body raises exactly at the names without an answer
    raises when one of its names has none. *)
Lemma forEach_unanswered {S} (body : S -> string -> option S)
    (names : list string) (init : S) :
  (forall s n, answered compose n -> exists s', body s n = Some s') ->
  (forall s n, ~ answered compose n -> body s n = None) ->
  ~ Forall (answered compose) names ->
  forEach names body init = None.
Proof.
  intros Hsome Hnone. revert init.
  induction names as [|n names IH]; intros init Hnot.
  - exfalso. apply Hnot. constructor.
  - rewrite forEach_cons. destruct (answered_dec n) as [Hn|Hn].
    + destruct (Hsome init n Hn) as [s' ->]. apply IH.
      intros Hall. apply Hnot. now constructor.
    + now rewrite (Hnone init n Hn).
Qed.

Lemma forEach_all_answered {S} (body : S -> string -> option S)
    (names : list string) (init : S) :
  (forall s n, answered compose n -> exists s', body s n = Some s') ->
  Forall (answered compose) names ->
  exists s', forEach names body init = Some s'.
Proof.
  intros Hsome. revert init.
  induction names as [|n names IH]; intros init Hall.
  - now exists init.
  - inversion Hall as [|? ? Hn Hall']; subst.
    rewrite forEach_cons. destruct (Hsome init n Hn) as [s' ->].
    now apply IH.
Qed.

Lemma databaseStep_answered (dbPasswords : Obj string) (code n : string) :
  answered compose n ->
  exists code', databaseStep compose dbPasswords code n = Some code'.
Proof.
  intros Hn. destruct (serviceNamed_answered n Hn) as [service Hs].
  eexists. exact (databaseStep_declaration _ _ _ _ _ Hs).
Qed.

Lemma databaseStep_unanswered (dbPasswords : Obj string) (code n : string) :
  ~ answered compose n ->
  databaseStep compose dbPasswords code n = None.
Proof.
  intros Hn. unfold databaseStep. now rewrite (serviceNamed_unanswered n Hn).
Qed.

Lemma appStep_answered (dbPasswords : Obj string) (code n : string) :
  answered compose n ->
  exists code', appStep compose dbPasswords code n = Some code'.
Proof.
  intros Hn. destruct (serviceNamed_answered n Hn) as [service Hs].
  unfold appStep. rewrite Hs. eexists. reflexivity.
Qed.

Lemma appStep_unanswered (dbPasswords : Obj string) (code n : string) :
  ~ answered compose n ->
  appStep compose dbPasswords code n = None.
Proof.
  intros Hn. unfold appStep. now rewrite (serviceNamed_unanswered n Hn).
Qed.

Lemma serviceFieldsStep_answered (schema : Schema) (n : string) :
  answered compose n ->
  exists schema', serviceFieldsStep compose schema n = Some schema'.
Proof.
  intros Hn. destruct (serviceNamed_answered n Hn) as [service Hs].
  unfold serviceFieldsStep. rewrite Hs. eexists. reflexivity.
Qed.

Lemma serviceFieldsStep_unanswered (schema : Schema) (n : string) :
  ~ answered compose n ->
  serviceFieldsStep compose schema n = None.
Proof.
  intros Hn. unfold serviceFieldsStep.
  now rewrite (serviceNamed_unanswered n Hn).
Qed.

Lemma Forall_allServices (a : Analysis) :
  Forall (answered compose) (allServices a) <->
  Forall (answered compose) (databases a)
  /\ Forall (answered compose) (apps a)
  /\ Forall (answered compose) (otherServices a).
Proof. unfold allServices. now rewrite !Forall_app. Qed.

(** X15. Take an analysis whose database names are read literally as
    patterns. [generateIndexTs] and the schema synthesis of
    [generateMetaYaml] raise exactly when the analysis holds a name for
    which the lookup among the services has no answer: a name that the
    document does not declare and that objects do not inherit. For a
    name that every object inherits, as [toString] is, they return
    although the document declares no such service. When no name of
    the analysis is inherited, they raise exactly when a name is not
    declared. *)
Theorem generation_raises_on_undeclared (slug : string) (a : Analysis) :
  Forall (fun n => regexLiteral n = true) (databases a) ->
  (generateIndexTs slug compose a = None <->
   ~ Forall (answered compose) (allServices a))
  /\ (metaSchema slug compose a = None <->
      ~ Forall (answered compose) (allServices a))
  /\ (Forall (fun n => inherited n = false) (allServices a) ->
      (Forall (answered compose) (allServices a) <->
       Forall (declared compose) (allServices a))).
Proof.
  intros _. split; [|split].
  - destruct (Forall_dec (answered compose) answered_dec (databases a))
      as [Hd|Hd];
      [destruct (Forall_dec (answered compose) answered_dec (apps a))
         as [Ha|Ha];
       [destruct (Forall_dec (answered compose) answered_dec
                    (otherServices a)) as [Ho|Ho]|]|].
    + unfold generateIndexTs. cbv zeta.
      destruct (fold_left passwordStep (databases a) _) as [table code].
      destruct (forEach_all_answered (databaseStep compose table) _
                  (if (0 <? List.length (databases a))%nat
                   then code ++ nl else code)
                  (databaseStep_answered table) Hd) as [c1 ->].
      destruct (forEach_all_answered (appStep compose table) _ c1
                  (appStep_answered table) Ha) as [c2 ->].
      destruct (forEach_all_answered (appStep compose table) _ c2
                  (appStep_answered table) Ho) as [c3 ->].
      split; [discriminate|]. intros Hnot. exfalso. apply Hnot.
      now apply Forall_allServices.
    + split; [intros _ Hall; apply Forall_allServices in Hall; tauto|].
      intros _. unfold generateIndexTs. cbv zeta.
      destruct (fold_left passwordStep (databases a) _) as [table code].
      destruct (forEach_all_answered (databaseStep compose table) _
                  (if (0 <? List.length (databases a))%nat
                   then code ++ nl else code)
                  (databaseStep_answered table) Hd) as [c1 ->].
      destruct (forEach_all_answered (appStep compose table) _ c1
                  (appStep_answered table) Ha) as [c2 ->].
      now rewrite (forEach_unanswered (appStep compose table) _ c2
                     (appStep_answered table) (appStep_unanswered table) Ho).
    + split; [intros _ Hall; apply Forall_allServices in Hall; tauto|].
      intros _. unfold generateIndexTs. cbv zeta.
      destruct (fold_left passwordStep (databases a) _) as [table code].
      destruct (forEach_all_answered (databaseStep compose table) _
                  (if (0 <? List.length (databases a))%nat
                   then code ++ nl else code)
                  (databaseStep_answered table) Hd) as [c1 ->].
      now rewrite (forEach_unanswered (appStep compose table) _ c1
                     (appStep_answered table) (appStep_unanswered table) Ha).
    + split; [intros _ Hall; apply Forall_allServices in Hall; tauto|].
      intros _. unfold generateIndexTs. cbv zeta.
      destruct (fold_left passwordStep (databases a) _) as [table code].
      now rewrite (forEach_unanswered (databaseStep compose table) _ _
                     (databaseStep_answered table)
                     (databaseStep_unanswered table) Hd).
  - unfold metaSchema. cbv zeta. fold (allServices a).
    destruct (Forall_dec (answered compose) answered_dec (allServices a))
      as [Hall|Hnot].
    + destruct (forEach_all_answered (serviceFieldsStep compose) _
                  initialSchema serviceFieldsStep_answered Hall)
        as [schema ->].
      split; [discriminate|]. intros H. contradiction.
    + rewrite (forEach_unanswered (serviceFieldsStep compose) _ _
                 serviceFieldsStep_answered serviceFieldsStep_unanswered
                 Hnot).
      split; auto.
  - intros Hown. rewrite !Forall_forall. split; intros Hall n Hn.
    + destruct (Hall n Hn) as [Hd|Hi]; [exact Hd|].
      rewrite (proj1 (Forall_forall _ _) Hown n Hn) in Hi. discriminate.
    + left. now apply Hall.
Qed.

End Undeclared.

(* ================================================================== *)
(** ** Ports and commands in the declaration of a service *)
(* ================================================================== *)

Section DeclarationBlocks.

Lemma parsePort_three_segments (port : string) :
  3 <= List.length (split ":" port) -> parsePort port = None.
Proof.
  intros Hlen. unfold parsePort.
  destruct (Nat.eqb_spec (List.length (split ":" port)) 2); [lia|].
  destruct (Nat.eqb_spec (List.length (split ":" port)) 1); [lia|].
  reflexivity.
Qed.

Lemma parsePort_pair_of_decimals (h c : N) :
  parsePort (decimal (Z.of_N h) ++ ":" ++ decimal (Z.of_N c))
  = Some {| hostPort := toDouble (Z.of_N h);
            containerPort := toDouble (Z.of_N c) |}.
Proof.
  rewrite (parsePort_two _ (decimal (Z.of_N h)) (decimal (Z.of_N c)))
    by (apply split_pair; apply decimal_no_colon).
  now rewrite !parseInt_decimal.
Qed.

(** X16. The declaration of a service reads its first port only: the
    ports after it change nothing; a first port of three segments or
    more, as [127.0.0.1:8080:80], leaves the service without a domains
    block even when later ports are well formed; and for a first port
    [host:container] given by two decimal numerals the block names the
    container port, as the double that it is read to prints: with all
    its digits when the port is below 2^53. *)
Theorem domains_from_first_port (serviceName : string)
    (service : DockerComposeService) (dbPasswords : Obj string)
    (first : string) (rest : list string) :
  generateAppServiceCode serviceName
    (withPorts service (Some (first :: rest))) dbPasswords
  = generateAppServiceCode serviceName
      (withPorts service (Some [first])) dbPasswords
  /\ (3 <= List.length (split ":" first) ->
      generateAppServiceCode serviceName
        (withPorts service (Some (first :: rest))) dbPasswords
      = generateAppServiceCode serviceName
          (withPorts service None) dbPasswords)
  /\ (forall (h c : N) (code : string),
        first = decimal (Z.of_N h) ++ ":" ++ decimal (Z.of_N c) ->
        domainsCode (withPorts service (Some (first :: rest))) code
        = code ++ "      domains: [" ++ nl
               ++ "        {" ++ nl
               ++ "          host: " ++ quoted "$(EASYPANEL_DOMAIN)"
               ++ "," ++ nl
               ++ "          port: "
               ++ numberToString (toDouble (Z.of_N c)) ++ "," ++ nl
               ++ "        }," ++ nl
               ++ "      ]," ++ nl
        /\ (safeInteger c ->
            numberToString (toDouble (Z.of_N c)) = decimal (Z.of_N c))).
Proof.
  split; [reflexivity|]. split.
  - intros Hlen.
    unfold generateAppServiceCode, domainsCode, withPorts.
    cbn [ports]. now rewrite (parsePort_three_segments _ Hlen).
  - intros h c code ->. split.
    + unfold domainsCode, withPorts. cbn [ports].
      rewrite parsePort_pair_of_decimals. cbv zeta. cbn [containerPort].
      now rewrite !sapp_assoc.
    + intros Hc. apply safeInteger_abs in Hc.
      rewrite (toDouble_safe _ Hc). unfold numberToString.
      destruct (Z.ltb_spec (Z.abs (Z.of_N c)) (2 ^ 53)); [reflexivity|lia].
Qed.

Lemma sapp_not_self (code text : string) :
  text <> "" -> code ++ text <> code.
Proof.
  intros Hne Heq. apply (f_equal String.length) in Heq.
  rewrite slength_app in Heq. destruct text; [congruence|].
  simpl in Heq. lia.
Qed.

Lemma replaceChar_guardedFrom (c : ascii) (after : bool) (s : string) :
  c <> "\"%char ->
  guardedFrom c after (replaceChar c (String "\" (String c "")) s) = true.
Proof.
  intros Hc. revert after.
  induction s as [|x s IH]; intros after; [reflexivity|].
  cbn [replaceChar]. destruct (Ascii.eqb_spec x c) as [->|Hx].
  - cbn [append guardedFrom]. rewrite Ascii.eqb_refl.
    destruct (Ascii.eqb_spec "\"%char c) as [Heq|_];
      [symmetry in Heq; contradiction|].
    cbn. destruct (Ascii.eqb_spec c "\"%char); [contradiction|].
    apply IH.
  - cbn [append guardedFrom]. rewrite IH, andb_true_r.
    destruct (Ascii.eqb_spec x c); [contradiction|reflexivity].
Qed.

(** X17. A command given as an array is emitted as the command string
    of its arguments joined by spaces. The empty string emits no deploy
    block, while the empty array emits one with an empty command. In
    the emitted command every double quote stands after a backslash. *)
Theorem command_emission (service : DockerComposeService)
    (args : list string) (code : string) :
  (join " " args <> "" ->
   commandCode (withCommand service (Some (CommandArray args))) code
   = commandCode
       (withCommand service (Some (CommandString (join " " args)))) code)
  /\ commandCode (withCommand service (Some (CommandString ""))) code = code
  /\ commandCode (withCommand service None) code = code
  /\ commandCode (withCommand service (Some (CommandArray []))) code
     = code ++ "      deploy: {" ++ nl
            ++ "        command: " ++ quoted "" ++ "," ++ nl
            ++ "      }," ++ nl
  /\ commandCode (withCommand service (Some (CommandArray []))) code <> code
  /\ (forall cmd,
        guarded (ascii_of_nat 34)
          (replaceChar (ascii_of_nat 34) ("\" ++ dq) cmd) = true).
Proof.
  assert (Hempty :
            commandCode (withCommand service (Some (CommandArray []))) code
            = code ++ "      deploy: {" ++ nl
                   ++ "        command: " ++ quoted "" ++ "," ++ nl
                   ++ "      }," ++ nl).
  { unfold commandCode, withCommand. cbn [command join replaceChar].
    now rewrite !sapp_assoc. }
  split; [|split; [reflexivity|split; [reflexivity|split;
                                        [exact Hempty|split]]]].
  - intros Hne. unfold commandCode, withCommand. cbn [command].
    destruct (join " " args) as [|c cmd]; [congruence|reflexivity].
  - rewrite Hempty. apply sapp_not_self. discriminate.
  - intros cmd. apply replaceChar_guardedFrom. discriminate.
Qed.

End DeclarationBlocks.

(* ================================================================== *)
(** ** The review notes and the metadata *)
(* ================================================================== *)

Section Notes.










End Notes.

Section Metadata.

Lemma lowerChar_upperChar (c : ascii) :
  isSlugChar c = true -> lowerChar (upperChar c) = c.
Proof.
  intros Hc. unfold upperChar. cbv zeta.
  destruct ((97 <=? nat_of_ascii c) && (nat_of_ascii c <=? 122))%nat eqn:Hl;
    [|now apply lowerChar_slug].
  apply andb_true_iff in Hl as [Hlo Hhi].
  apply Nat.leb_le in Hlo. apply Nat.leb_le in Hhi.
  unfold lowerChar. cbv zeta.
  rewrite nat_ascii_embedding by lia.
  destruct (Nat.leb_spec 65 (nat_of_ascii c - 32)); [|lia].
  destruct (Nat.leb_spec (nat_of_ascii c - 32) 90); [|lia].
  cbn [andb].
  replace (nat_of_ascii c - 32 + 32) with (nat_of_ascii c) by lia.
  apply ascii_nat_embedding.
Qed.

Lemma toLowerCase_slugChars (s : string) :
  allSlugChars s = true -> toLowerCase s = s.
Proof.
  induction s as [|x s IH]; intros Hs; [reflexivity|].
  cbn [allSlugChars] in Hs. apply andb_true_iff in Hs as [Hx Hs].
  cbn [toLowerCase]. now rewrite (lowerChar_slug _ Hx), (IH Hs).
Qed.

Lemma showLength_numeral {A} (l : list A) :
  showLength l = numeral (N.of_nat (List.length l)).
Proof. unfold showLength, numeral. now rewrite nat_N_Z. Qed.

(** X19. For a slug that [convert] accepts and the analysis of a
    document, the metadata is always built: its description counts the
    declared services, its schema is the synthesised one, and its name
    is the slug with the first character in upper case, so it has the
    length of the slug, the same characters after the first, and
    lowercases back to the slug. *)
Theorem generateMeta_name_and_count (slug today : string)
    (compose : DockerCompose) :
  validSlug slug = true ->
  let a := analyzeServices (services compose) in
  exists meta,
    generateMeta slug compose a today = Some meta
    /\ metaSchema slug compose a = Some (Meta.schema meta)
    /\ Meta.description meta
       = "Converted from docker-compose.yml with "
           ++ numeral (N.of_nat (List.length (services compose)))
           ++ " service(s)"
    /\ Meta.changeLog meta
       = [(today, "Initial conversion from docker-compose")]
    /\ String.length (Meta.name meta) = String.length slug
    /\ slice1 (Meta.name meta) = slice1 slug
    /\ toLowerCase (Meta.name meta) = slug.
Proof.
  intros Hvalid a.
  destruct (analysis_names_declared compose) as (Hd & Ha & Ho).
  fold a in Hd, Ha, Ho.
  assert (Hall : Forall (fun n => In n (keys (services compose)))
                   (databases a ++ apps a ++ otherServices a)%list)
    by (rewrite !Forall_app; auto).
  destruct (serviceFields_loop compose _ initialSchema Hall)
    as [schema [Hloop _]].
  assert (Hschema : metaSchema slug compose a = Some schema) by exact Hloop.
  unfold generateMeta. rewrite Hschema. eexists. split; [reflexivity|].
  cbn [Meta.schema Meta.description Meta.changeLog Meta.name].
  split; [reflexivity|]. split.
  - rewrite showLength_numeral. do 3 f_equal.
    destruct (analyzeServices_lists (services compose)) as (Hdl & Hal & Hol).
    fold a in Hdl, Hal, Hol. rewrite Hdl, Hal, Hol.
    rewrite (Permutation_length (namesOfClass_permutation _)).
    unfold keys. now rewrite length_map.
  - split; [reflexivity|]. destruct slug as [|c s]; [discriminate|].
    cbn [charAt0 slice1 toUpperCase append String.length].
    split; [reflexivity|]. split; [reflexivity|].
    cbn [validSlug allSlugChars] in Hvalid.
    apply andb_true_iff in Hvalid as [Hc Hs].
    cbn [toLowerCase]. rewrite (lowerChar_upperChar _ Hc). f_equal.
    now apply toLowerCase_slugChars.
Qed.

End Metadata.

(* ================================================================== *)
(** ** The further properties at sample inputs *)
(* ================================================================== *)

Section WorkedFurther.

Lemma validSlug_my_app2 :
  validSlug "my-app2" = true
  /\ validSlug "My_App" = false
  /\ validSlug "app!" = false
  /\ mem "/" "my-app2" = false
  /\ isUrl "my-app2" = false.
Proof.
  assert (Hvalid : validSlug "my-app2" = true) by reflexivity.
  pose proof (validSlug_is_one_directory_name "my-app2" Hvalid)
    as (_ & Hslash & _ & _ & _ & _ & _ & Hurl).
  split; [exact Hvalid|]. split; [reflexivity|]. split; [reflexivity|].
  split; [exact Hslash|exact Hurl].
Defined.

Lemma parseVolume_rebuilds_db_data :
  2 <= List.length (split ":" "db-data:/var/lib/postgresql/data")
  /\ "db-data:/var/lib/postgresql/data"
     = name (parseVolume "db-data:/var/lib/postgresql/data")
       ++ ":"
       ++ containerPath (parseVolume "db-data:/var/lib/postgresql/data").
Proof.
  assert (Hlen : 2 <= List.length
                        (split ":" "db-data:/var/lib/postgresql/data"))
    by (simpl; lia).
  split; [exact Hlen|].
  exact (proj2 (parseVolume_rebuilds_token
                  "db-data:/var/lib/postgresql/data" Hlen) eq_refl).
Defined.

Lemma mountCode_nginx_conf :
  mem ":" "./nginx.conf" = false
  /\ mem ":" "/etc/nginx/nginx.conf" = false
  /\ mountCode "" ("./nginx.conf" ++ ":" ++ "/etc/nginx/nginx.conf")
     = "        // TODO: Handle bind mount: ./nginx.conf:/etc/nginx/nginx.conf"
         ++ nl.
Proof.
  assert (Hs : mem ":" "./nginx.conf" = false) by reflexivity.
  assert (Ht : mem ":" "/etc/nginx/nginx.conf" = false) by reflexivity.
  split; [exact Hs|]. split; [exact Ht|].
  exact (mountCode_of_two_segments "" "./nginx.conf"
           "/etc/nginx/nginx.conf" Hs Ht).
Defined.

Lemma parsePort_with_protocol :
  mem ":" "/tcp" = false
  /\ startsWithDigit "/tcp" = false
  /\ safeInteger 8080
  /\ safeInteger 80
  /\ parsePort "8080:80/tcp" = parsePort "8080:80"
  /\ parsePort "8080:80/tcp"
     = Some {| hostPort := Int 8080; containerPort := Int 80 |}
  /\ parsePort "80/tcp"
     = Some {| hostPort := Int 80; containerPort := Int 80 |}.
Proof.
  assert (Hc : mem ":" "/tcp" = false) by reflexivity.
  assert (Hd : startsWithDigit "/tcp" = false) by reflexivity.
  assert (Hh : safeInteger 8080) by reflexivity.
  assert (Hp : safeInteger 80) by reflexivity.
  destruct (parsePort_ignores_suffix 8080 80 "/tcp" Hc Hd)
    as (Hsame & _ & Hsafe).
  destruct (Hsafe Hh Hp) as [Hpair Hone].
  split; [exact Hc|]. split; [exact Hd|].
  split; [exact Hh|]. split; [exact Hp|].
  split; [exact Hsame|]. split; [exact Hpair|exact Hone].
Defined.

(** A port beyond 2^53 is bound to the double next to it, and a
    negative one as it is. *)
Lemma parsePort_beyond_safe_integers :
  parsePort "9007199254740993"
  = Some {| hostPort := Int 9007199254740992;
            containerPort := Int 9007199254740992 |}
  /\ parsePort "-1" = Some {| hostPort := Int (-1); containerPort := Int (-1) |}
  /\ parsePort "70000"
     = Some {| hostPort := Int 70000; containerPort := Int 70000 |}.
Proof.
  split; [exact (proj1 (parsePort_any_integer 9007199254740993))|].
  split; [exact (proj1 (parsePort_any_integer (-1)))|].
  exact (proj1 (parsePort_any_integer 70000)).
Defined.

Lemma detected_engine_bitnami_redis :
  detectDatabaseType (imageOrEmpty (imageService "bitnami/Redis:7"))
  = Some "redis"
  /\ classify "cache" (imageService "bitnami/Redis:7") = Database.
Proof.
  assert (Ht : detectDatabaseType
                 (imageOrEmpty (imageService "bitnami/Redis:7"))
               = Some "redis") by reflexivity.
  split; [exact Ht|].
  exact (proj2 (proj2 (proj2
           (detected_engine_is_database "cache"
              (imageService "bitnami/Redis:7") "redis" Ht)))).
Defined.


Lemma interpolateEnvValue_nginx_host :
  Forall (fun dbName => regexLiteral dbName = true)
    (keys [("db", "dbPassword"); ("redis", "redisPassword")])
  /\ Forall (fun dbName => includes "example.com costs $5" dbName = false)
       (keys [("db", "dbPassword"); ("redis", "redisPassword")])
  /\ interpolateEnvValue "example.com costs $5"
       [("db", "dbPassword"); ("redis", "redisPassword")]
     = "example.com costs \$5".
Proof.
  assert (Hliteral :
            Forall (fun dbName => regexLiteral dbName = true)
              (keys [("db", "dbPassword"); ("redis", "redisPassword")]))
    by (repeat constructor).
  assert (Hnone :
            Forall (fun dbName => includes "example.com costs $5" dbName
                                  = false)
              (keys [("db", "dbPassword"); ("redis", "redisPassword")]))
    by (repeat constructor).
  split; [exact Hliteral|]. split; [exact Hnone|].
  exact (interpolateEnvValue_without_names "example.com costs $5" _
           Hliteral Hnone).
Defined.

(** An analysis that names a service [cache] which the document of the
    scenario does not declare, and one that names [toString]. *)
Lemma generation_raises_on_cache :
  Forall (fun n => regexLiteral n = true) (databases staleAnalysis)
  /\ Forall (fun n => inherited n = false) (allServices staleAnalysis)
  /\ ~ Forall (declared dbAndApi) (allServices staleAnalysis)
  /\ generateIndexTs "app" dbAndApi staleAnalysis = None
  /\ metaSchema "app" dbAndApi staleAnalysis = None
  /\ ~ Forall (declared dbAndApi) (allServices inheritedAnalysis)
  /\ Forall (answered dbAndApi) (allServices inheritedAnalysis)
  /\ generateIndexTs "app" dbAndApi inheritedAnalysis <> None
  /\ metaSchema "app" dbAndApi inheritedAnalysis <> None.
Proof.
  assert (Hliteral : Forall (fun n => regexLiteral n = true)
                       (databases staleAnalysis))
    by (repeat constructor).
  assert (Hown : Forall (fun n => inherited n = false)
                   (allServices staleAnalysis))
    by (repeat constructor).
  destruct (generation_raises_on_undeclared dbAndApi "app" staleAnalysis
              Hliteral) as (Hindex & Hschema & Hsame).
  assert (Hraised : metaSchema "app" dbAndApi staleAnalysis = None)
    by reflexivity.
  pose proof (proj1 Hschema Hraised) as Hunanswered.
  assert (Hliteral' : Forall (fun n => regexLiteral n = true)
                        (databases inheritedAnalysis))
    by (repeat constructor).
  destruct (generation_raises_on_undeclared dbAndApi "app" inheritedAnalysis
              Hliteral') as (Hindex' & Hschema' & _).
  assert (Hanswered : Forall (answered dbAndApi)
                        (allServices inheritedAnalysis)).
  { apply Forall_cons; [left; unfold declared; simpl; now auto|].
    apply Forall_cons; [left; unfold declared; simpl; now auto|].
    apply Forall_cons; [now right|constructor]. }
  split; [exact Hliteral|]. split; [exact Hown|].
  split; [intros Hall; apply Hunanswered; now apply (Hsame Hown)|].
  split; [exact (proj2 Hindex Hunanswered)|]. split; [exact Hraised|].
  split.
  { intros Hall. inversion Hall as [|? ? _ Hall']; subst.
    inversion Hall' as [|? ? _ Hall'']; subst.
    inversion Hall'' as [|? ? Hd _]; subst.
    unfold declared in Hd. simpl in Hd. intuition discriminate. }
  split; [exact Hanswered|].
  split; intros Hnone.
  - exact (proj1 Hindex' Hnone Hanswered).
  - exact (proj1 Hschema' Hnone Hanswered).
Defined.

(** The metadata of the guide's document under the slug [my-app]. *)
Lemma generateMeta_my_app :
  validSlug "my-app" = true
  /\ option_map Meta.name
       (generateMeta "my-app" guide (analyzeServices (services guide))
          "2024-01-15")
     = Some "My-app"
  /\ exists meta,
       generateMeta "my-app" guide (analyzeServices (services guide))
         "2024-01-15" = Some meta
       /\ Meta.description meta
          = "Converted from docker-compose.yml with 4 service(s)"
       /\ toLowerCase (Meta.name meta) = "my-app".
Proof.
  assert (Hvalid : validSlug "my-app" = true) by reflexivity.
  destruct (generateMeta_name_and_count "my-app" "2024-01-15" guide Hvalid)
    as (meta & Hmeta & _ & Hdescription & _ & _ & _ & Hlower).
  split; [exact Hvalid|]. split; [reflexivity|].
  exists meta. split; [exact Hmeta|]. split; [exact Hdescription|exact Hlower].
Defined.

End WorkedFurther.
